(** * Cryptographic data vault: key lifecycle, cipher service and vault
      orchestration

    A shallow embedding of [keyManager.js], [encryptionService.js],
    [dataStore.js] and [vaultService.js], together with the part of the
    HTTP layer that classifies errors.

    Conventions.
    - A JavaScript string is a [string]; each character stands for one code
      unit, so [String.length] is the [.length] of the source.
    - A version number is a [Z]: the source keeps it in a Number that only
      ever holds small non-negative integers.
    - Binary data is a [list byte].  Long-lived binary objects (the master
      key and the derived keys) live in a heap of [BinaryObject]s and the
      objects of the program hold references to them, so that in-place
      mutation ([fill]) and dropped references are both visible.
    - Everything the source obtains from the Node.js runtime and that cannot
      be written down as a function on these types (HKDF, AES-GCM, JSON,
      UTF-8) is a field of a [Platform]; what the proofs rely on is stated in
      [PlatformSpec]. *)

From Stdlib Require Import ZArith List String Ascii Lia Bool.
From Stdlib Require Import Strings.Byte.
From stdpp Require Import base option gmap strings list pretty.

Open Scope string_scope.
Open Scope Z_scope.

(* ================================================================== *)
(** * Bytes and text codecs *)
(* ================================================================== *)

Abbreviation bytes := (list byte).

#[global] Instance byte_eq_decision : EqDecision byte.
Proof.
  intros x y. destruct (Byte.eqb x y) eqn:E.
  - left. apply Byte.byte_dec_bl, E.
  - right. apply Byte.eqb_false, E.
Defined.

(** Total conversion of a number to a byte (reduced modulo 256). *)
Definition byte_of_N (n : N) : byte :=
  match Byte.of_N (n mod 256)%N with
  | Some b => b
  | None => x00
  end.

(** [buf.fill(0)]: every octet becomes zero, the length is kept. *)
Definition zero_fill (bs : bytes) : bytes := map (fun _ => x00) bs.

(** All octets are zero. *)
Definition all_zero (bs : bytes) : bool :=
  forallb (fun b => Byte.eqb b x00) bs.

(** ** Hexadecimal text, as [Buffer.from(s, 'hex')] reads it *)

Definition unhex (c : ascii) : option N :=
  let n := N_of_ascii c in
  if ((48 <=? n) && (n <=? 57))%N then Some (n - 48)%N
  else if ((97 <=? n) && (n <=? 102))%N then Some (n - 87)%N
  else if ((65 <=? n) && (n <=? 70))%N then Some (n - 55)%N
  else None.

(** Decoding takes the digits two at a time and stops at the first pair
    that is not made of two hexadecimal digits; a trailing odd character is
    dropped. *)
Fixpoint hex_decode (s : string) : bytes :=
  match s with
  | String a (String b rest) =>
      match unhex a, unhex b with
      | Some hi, Some lo => byte_of_N (16 * hi + lo) :: hex_decode rest
      | _, _ => []
      end
  | _ => []
  end.

Definition hex_digit (n : N) : ascii :=
  if (n <? 10)%N then ascii_of_N (n + 48) else ascii_of_N (n + 87).

Definition hex_of_byte (b : byte) : string :=
  let n := Byte.to_N b in
  String (hex_digit (n / 16)) (String (hex_digit (n mod 16)) EmptyString).

Definition hex_encode (bs : bytes) : string :=
  fold_right (fun b acc => hex_of_byte b ++ acc) "" bs.

(** A string consists of hexadecimal digits only. *)
Fixpoint is_hex (s : string) : bool :=
  match s with
  | EmptyString => true
  | String c rest => match unhex c with Some _ => is_hex rest | None => false end
  end.

(** ** Base64 text, as [buf.toString('base64')] and
       [Buffer.from(s, 'base64')] handle it *)

Definition b64_char (n : N) : ascii :=
  if (n <? 26)%N then ascii_of_N (n + 65)
  else if (n <? 52)%N then ascii_of_N (n + 71)
  else if (n <? 62)%N then ascii_of_N (n - 4)
  else if (n =? 62)%N then "+"%char
  else "/"%char.

(** The decoder also accepts the URL-safe letters [-] and [_]. *)
Definition b64_value (c : ascii) : option N :=
  let n := N_of_ascii c in
  if ((65 <=? n) && (n <=? 90))%N then Some (n - 65)%N
  else if ((97 <=? n) && (n <=? 122))%N then Some (n - 71)%N
  else if ((48 <=? n) && (n <=? 57))%N then Some (n + 4)%N
  else if ((n =? 43) || (n =? 45))%N then Some 62%N
  else if ((n =? 47) || (n =? 95))%N then Some 63%N
  else None.

Fixpoint base64_encode (bs : bytes) : string :=
  match bs with
  | [] => ""
  | [a] =>
      let x := Byte.to_N a in
      String (b64_char (x / 4))
        (String (b64_char ((x mod 4) * 16)) "==")
  | [a; b] =>
      let x := Byte.to_N a in
      let y := Byte.to_N b in
      String (b64_char (x / 4))
        (String (b64_char ((x mod 4) * 16 + y / 16))
           (String (b64_char ((y mod 16) * 4)) "="))
  | a :: b :: c :: rest =>
      let x := Byte.to_N a in
      let y := Byte.to_N b in
      let z := Byte.to_N c in
      String (b64_char (x / 4))
        (String (b64_char ((x mod 4) * 16 + y / 16))
           (String (b64_char ((y mod 16) * 4 + z / 64))
              (String (b64_char (z mod 64)) (base64_encode rest))))
  end.

(** The decoder skips characters outside the alphabet and stops at the
    first padding character. *)
Fixpoint b64_sextets (s : string) : list N :=
  match s with
  | EmptyString => []
  | String c rest =>
      if Ascii.eqb c "="%char then []
      else match b64_value c with
           | Some v => v :: b64_sextets rest
           | None => b64_sextets rest
           end
  end.

Fixpoint b64_octets (vs : list N) : bytes :=
  match vs with
  | s0 :: s1 :: s2 :: s3 :: rest =>
      byte_of_N (s0 * 4 + s1 / 16)
        :: byte_of_N ((s1 mod 16) * 16 + s2 / 4)
        :: byte_of_N ((s2 mod 4) * 64 + s3)
        :: b64_octets rest
  | [s0; s1; s2] =>
      [byte_of_N (s0 * 4 + s1 / 16); byte_of_N ((s1 mod 16) * 16 + s2 / 4)]
  | [s0; s1] => [byte_of_N (s0 * 4 + s1 / 16)]
  | _ => []
  end.

Definition base64_decode (s : string) : bytes := b64_octets (b64_sextets s).

(** [haystack.includes(needle)] *)
Fixpoint includes (needle haystack : string) : bool :=
  String.prefix needle haystack ||
  match haystack with
  | EmptyString => false
  | String _ rest => includes needle rest
  end.

(* ================================================================== *)
(** * Completions and the state monad of a method *)
(* ================================================================== *)

(** Every exception of the program is an [Error] carrying a message. *)
Inductive JsError : Type := Error (message : string).

Definition message (e : JsError) : string :=
  match e with Error m => m end.

(** How a call completes: normally with a value, or by throwing. *)
Inductive Completion (A : Type) : Type :=
| Return (a : A)
| Throw (e : JsError).
Arguments Return {A} a.
Arguments Throw {A} e.

(** A method runs on a state [S] (its receiver and the world).  What it did
    to the state before throwing stays done. *)
Definition M (S A : Type) : Type := S -> Completion A * S.

Definition ret {S A} (a : A) : M S A := fun s => (Return a, s).

Definition throw {S A} (e : JsError) : M S A := fun s => (Throw e, s).

Definition bind {S A B} (m : M S A) (k : A -> M S B) : M S B :=
  fun s =>
    match m s with
    | (Return a, s') => k a s'
    | (Throw e, s') => (Throw e, s')
    end.

Definition get {S} : M S S := fun s => (Return s, s).

Definition modify {S} (f : S -> S) : M S unit := fun s => (Return tt, f s).

(** [try { m } catch (error) { h error }] *)
Definition try_catch {S A} (m : M S A) (h : JsError -> M S A) : M S A :=
  fun s =>
    match m s with
    | (Return a, s') => (Return a, s')
    | (Throw e, s') => h e s'
    end.

(** A completion that needs no state. *)
Definition lift {S A} (c : Completion A) : M S A := fun s => (c, s).

Notation "'let*' x ':=' m 'in' k" := (bind m (fun x => k))
  (at level 10, x name, m at level 100, k at level 200).

(* ================================================================== *)
(** * The world outside the objects *)
(* ================================================================== *)

(** [hkdfSync] hands back an [ArrayBuffer]; [Buffer.from] and
    [randomBytes] hand back a [Buffer].  Only the latter has [fill] and
    answers [true] to [Buffer.isBuffer]. *)
Inductive BinaryObject : Type :=
| ArrayBuffer (data : bytes)
| Buffer (data : bytes).

Definition contents (o : BinaryObject) : bytes :=
  match o with ArrayBuffer d => d | Buffer d => d end.

Definition is_Buffer (o : BinaryObject) : bool :=
  match o with Buffer _ => true | ArrayBuffer _ => false end.

Definition fill_zero (o : BinaryObject) : BinaryObject :=
  match o with
  | Buffer d => Buffer (zero_fill d)
  | ArrayBuffer d => ArrayBuffer (zero_fill d)
  end.

(** A reference to a binary object: its index in the heap. *)
Abbreviation ref := nat.

Record World : Type := mkWorld {
  heap : list BinaryObject;  (** binary objects allocated so far *)
  entropy : nat -> byte;     (** what the system random source delivers *)
  drawn : nat;               (** how much of it has been consumed *)
  clock : Z;                 (** wall clock, milliseconds *)
  timers : list nat;         (** interval timers that are still scheduled *)
  next_timer : nat
}.

Definition set_heap (h : list BinaryObject) (w : World) : World :=
  mkWorld h (entropy w) (drawn w) (clock w) (timers w) (next_timer w).

(** [crypto.randomBytes(n)] *)
Definition randomBytes (n : nat) : M World bytes :=
  fun w =>
    (Return (map (entropy w) (seq (drawn w) n)),
     mkWorld (heap w) (entropy w) (drawn w + n)%nat (clock w) (timers w)
       (next_timer w)).

(** [new Date()] *)
Definition new_Date : M World Z := fun w => (Return (clock w), w).

(** A new binary object comes into being. *)
Definition alloc (o : BinaryObject) : M World ref :=
  fun w => (Return (length (heap w)), set_heap (heap w ++ [o]) w).

(** The octets a reference currently leads to. *)
Definition read (r : ref) : M World bytes :=
  fun w =>
    (Return (match heap w !! r with Some o => contents o | None => [] end), w).

(** [Buffer.isBuffer(x)] for a reference [x] *)
Definition isBuffer (r : ref) : M World bool :=
  fun w =>
    (Return (match heap w !! r with Some o => is_Buffer o | None => false end),
     w).

(** [x.fill(0)], in place *)
Definition fill0 (r : ref) : M World unit :=
  fun w => (Return tt, set_heap (alter fill_zero r (heap w)) w).

(** [setInterval(callback, ms)]: the callback of the only interval timer
    of the program is [rotateKey]. *)
Definition setInterval : M World nat :=
  fun w =>
    (Return (next_timer w),
     mkWorld (heap w) (entropy w) (drawn w) (clock w)
       (next_timer w :: timers w) (S (next_timer w))).

(** [clearInterval(t)] *)
Definition clearInterval (t : nat) : M World unit :=
  fun w =>
    (Return tt,
     mkWorld (heap w) (entropy w) (drawn w) (clock w)
       (filter (fun t' => t' ≠ t) (timers w)) (next_timer w)).

(** [crypto.randomUUID()]: sixteen random octets with the version and
    variant bits of a version-4 UUID, printed 8-4-4-4-12. *)
Definition uuid_of_bytes (bs : bytes) : string :=
  let b :=
    imap (fun i x =>
            if Nat.eqb i 6 then
              byte_of_N (N.lor (N.land (Byte.to_N x) 15) 64)
            else if Nat.eqb i 8 then
              byte_of_N (N.lor (N.land (Byte.to_N x) 63) 128)
            else x) bs in
  hex_encode (take 4 b) ++ "-" ++
  hex_encode (take 2 (drop 4 b)) ++ "-" ++
  hex_encode (take 2 (drop 6 b)) ++ "-" ++
  hex_encode (take 2 (drop 8 b)) ++ "-" ++
  hex_encode (drop 10 b).

Definition randomUUID : M World string :=
  let* bs := randomBytes 16 in ret (uuid_of_bytes bs).

(** ** Running on an object and the world *)

(** The receiver of the running method. *)
Definition self {T} : M (T * World) T := fun s => (Return (fst s), s).

(** An assignment to fields of the receiver. *)
Definition update {T} (f : T -> T) : M (T * World) unit :=
  fun s => (Return tt, (f (fst s), snd s)).

(** An operation of the world, called from a method. *)
Definition in_world {T A} (m : M World A) : M (T * World) A :=
  fun s => let '(c, w) := m (snd s) in (c, (fst s, w)).

(** A method of a part [U] of the receiver [T]. *)
Definition zoom {T U A} (proj : T -> U) (inj : U -> T -> T)
    (m : M (U * World) A) : M (T * World) A :=
  fun s =>
    let '(c, (u, w)) := m (proj (fst s), snd s) in (c, (inj u (fst s), w)).

(** [new C(...)]: the constructor body runs on the fresh object. *)
Definition construct {T} (fresh : T) (body : M (T * World) unit) : M World T :=
  fun w =>
    match body (fresh, w) with
    | (Return _, (this, w')) => (Return this, w')
    | (Throw e, (_, w')) => (Throw e, w')
    end.

(* ================================================================== *)
(** * The Node.js primitives that stay abstract *)
(* ================================================================== *)

Record Platform : Type := mkPlatform {
  (** the values a caller may hand to [store] *)
  JSValue : Type;
  (** [JSON.stringify]; [None] when it throws or yields [undefined] *)
  JSON_stringify : JSValue -> option string;
  (** [JSON.parse]; throws a SyntaxError on malformed text *)
  JSON_parse : string -> Completion JSValue;
  (** [Buffer.from(s, 'utf8')] and [buf.toString('utf8')] *)
  utf8_encode : string -> bytes;
  utf8_decode : bytes -> string;
  (** [crypto.hkdfSync(digest, ikm, salt, info, keylen)] *)
  hkdfSync : string -> bytes -> bytes -> bytes -> nat -> Completion bytes;
  (** [createCipheriv(alg, key, iv)], [update], [final], [getAuthTag]:
      the ciphertext and the tag *)
  cipher : string -> bytes -> bytes -> bytes -> Completion (bytes * bytes);
  (** [createDecipheriv(alg, key, iv)], [setAuthTag(tag)], [update],
      [final]: the plaintext, or the exception of [final] *)
  decipher : string -> bytes -> bytes -> bytes -> bytes -> Completion bytes
}.

(** What the proofs may rely on. *)
Class PlatformSpec (P : Platform) : Prop := {
  hkdf_length : forall d ikm salt info n k,
    hkdfSync P d ikm salt info n = Return k -> length k = n;
  utf8_inverse : forall s, utf8_decode P (utf8_encode P s) = s;
  gcm_accepts : forall key iv pt,
    length key = 32%nat -> length iv = 12%nat ->
    exists ct tag, cipher P "aes-256-gcm" key iv pt = Return (ct, tag);
  gcm_inverse : forall key iv pt ct tag,
    cipher P "aes-256-gcm" key iv pt = Return (ct, tag) ->
    decipher P "aes-256-gcm" key iv tag ct = Return pt
}.

(** A value survives the journey through JSON text. *)
Definition JSON_serializable (P : Platform) (v : JSValue P) : Prop :=
  exists s, JSON_stringify P v = Some s /\ JSON_parse P s = Return v.

(* ================================================================== *)
(** * keyManager.js *)
(* ================================================================== *)

Record KeyManager : Type := mkKeyManager {
  masterKeyBuffer : ref;
  rotationIntervalMs : Z;
  currentVersion : Z;
  previousVersion : option Z;    (** [null] until the first rotation *)
  currentKey : option ref;       (** [null] only inside the constructor *)
  previousKey : option ref;      (** [null] until the first rotation *)
  rotationTimer : option nat;
  lastRotationTime : option Z
}.

Definition set_currentVersion (v : Z) (k : KeyManager) : KeyManager :=
  mkKeyManager (masterKeyBuffer k) (rotationIntervalMs k) v
    (previousVersion k) (currentKey k) (previousKey k) (rotationTimer k)
    (lastRotationTime k).

Definition set_previousVersion (v : option Z) (k : KeyManager) : KeyManager :=
  mkKeyManager (masterKeyBuffer k) (rotationIntervalMs k) (currentVersion k)
    v (currentKey k) (previousKey k) (rotationTimer k) (lastRotationTime k).

Definition set_currentKey (r : option ref) (k : KeyManager) : KeyManager :=
  mkKeyManager (masterKeyBuffer k) (rotationIntervalMs k) (currentVersion k)
    (previousVersion k) r (previousKey k) (rotationTimer k)
    (lastRotationTime k).

Definition set_previousKey (r : option ref) (k : KeyManager) : KeyManager :=
  mkKeyManager (masterKeyBuffer k) (rotationIntervalMs k) (currentVersion k)
    (previousVersion k) (currentKey k) r (rotationTimer k)
    (lastRotationTime k).

Definition set_rotationTimer (t : option nat) (k : KeyManager) : KeyManager :=
  mkKeyManager (masterKeyBuffer k) (rotationIntervalMs k) (currentVersion k)
    (previousVersion k) (currentKey k) (previousKey k) t
    (lastRotationTime k).

Definition set_lastRotationTime (t : option Z) (k : KeyManager) : KeyManager :=
  mkKeyManager (masterKeyBuffer k) (rotationIntervalMs k) (currentVersion k)
    (previousVersion k) (currentKey k) (previousKey k) (rotationTimer k) t.

Definition invalid_master_key : JsError :=
  Error "Master key must be 64 hex characters (32 bytes)".

(** The label of a derivation: [`vault-key-v${this.currentVersion}`]. *)
Definition key_info (P : Platform) (version : Z) : bytes :=
  utf8_encode P ("vault-key-v" ++ pretty version).

Section KeyManagerMethods.
Variable P : Platform.

(** [_generateInitialKey()] *)
Definition _generateInitialKey : M (KeyManager * World) unit :=
  let* salt := in_world (randomBytes 32) in
  let* this := self in
  let info := key_info P (currentVersion this) in
  let* ikm := in_world (read (masterKeyBuffer this)) in
  let* derived := lift (hkdfSync P "sha256" ikm salt info 32) in
  let* key := in_world (alloc (ArrayBuffer derived)) in
  let* _ := update (set_currentKey (Some key)) in
  let* now := in_world new_Date in
  update (set_lastRotationTime (Some now)).

(** [_startRotation()] *)
Definition _startRotation : M (KeyManager * World) unit :=
  let* t := in_world setInterval in
  update (set_rotationTimer (Some t)).

(** [new KeyManager(masterKey, rotationIntervalMs = 60 * 60 * 1000)];
    an absent argument is [None]. *)
Definition KeyManager_new (masterKey : option string)
    (rotationIntervalMs : option Z) : M World KeyManager :=
  match masterKey with
  | None => throw invalid_master_key
  | Some masterKey =>
      if String.eqb masterKey "" || negb (String.length masterKey =? 64)%nat
      then throw invalid_master_key
      else
        let* mk := alloc (Buffer (hex_decode masterKey)) in
        construct
          {| masterKeyBuffer := mk;
             rotationIntervalMs := default (60 * 60 * 1000) rotationIntervalMs;
             currentVersion := 1;
             previousVersion := None;
             currentKey := None;
             previousKey := None;
             rotationTimer := None;
             lastRotationTime := None |}
          (let* _ := _generateInitialKey in _startRotation)
  end.

(** [rotateKey()] *)
Definition rotateKey : M (KeyManager * World) unit :=
  (* move current to previous *)
  let* _ := update (fun this => set_previousKey (currentKey this) this) in
  let* _ := update (fun this =>
                      set_previousVersion (Some (currentVersion this)) this) in
  (* increment version *)
  let* _ := update (fun this =>
                      set_currentVersion (currentVersion this + 1) this) in
  (* generate new current key *)
  let* salt := in_world (randomBytes 32) in
  let* this := self in
  let info := key_info P (currentVersion this) in
  let* ikm := in_world (read (masterKeyBuffer this)) in
  let* derived := lift (hkdfSync P "sha256" ikm salt info 32) in
  let* key := in_world (alloc (ArrayBuffer derived)) in
  let* _ := update (set_currentKey (Some key)) in
  let* now := in_world new_Date in
  update (set_lastRotationTime (Some now)).

(** [forceRotation()] *)
Definition forceRotation : M (KeyManager * World) unit := rotateKey.

(** [destroy()]; the guard of each [fill] is
    [x && Buffer.isBuffer(x)]. *)
Definition fill_if_buffer (x : option ref) : M (KeyManager * World) unit :=
  match x with
  | Some r =>
      let* b := in_world (isBuffer r) in
      if b then in_world (fill0 r) else ret tt
  | None => ret tt
  end.

Definition destroy : M (KeyManager * World) unit :=
  let* this := self in
  let* _ :=
    match rotationTimer this with
    | Some t =>
        let* _ := in_world (clearInterval t) in
        update (set_rotationTimer None)
    | None => ret tt
    end in
  let* this := self in
  let* _ := fill_if_buffer (currentKey this) in
  let* this := self in
  let* _ := fill_if_buffer (previousKey this) in
  let* this := self in
  fill_if_buffer (Some (masterKeyBuffer this)).

End KeyManagerMethods.

(** [getCurrentKey()]: [{ key, version }] *)
Definition getCurrentKey (this : KeyManager) : option ref * Z :=
  (currentKey this, currentVersion this).

(** [getKeyByVersion(version)]; [None] is [null]. *)
Definition getKeyByVersion (this : KeyManager) (version : Z) : option ref :=
  if version =? currentVersion this then currentKey this
  else if bool_decide (previousVersion this = Some version)
          && bool_decide (is_Some (previousKey this))
       then previousKey this
       else None.

(** [isVersionSupported(version)] *)
Definition isVersionSupported (this : KeyManager) (version : Z) : bool :=
  (version =? currentVersion this)
  || (bool_decide (previousVersion this = Some version)
      && bool_decide (previousKey this <> None)).

Record KeyInfo : Type := mkKeyInfo {
  info_currentVersion : Z;
  info_previousVersion : option Z;
  info_lastRotationTime : Z;
  info_nextRotationTime : Z
}.

(** [getKeyInfo()]; [this.lastRotationTime.getTime()] is a TypeError on
    [null]. *)
Definition getKeyInfo (this : KeyManager) : Completion KeyInfo :=
  match lastRotationTime this with
  | Some t =>
      Return (mkKeyInfo (currentVersion this) (previousVersion this) t
                (t + rotationIntervalMs this))
  | None =>
      Throw (Error "Cannot read properties of null (reading 'getTime')")
  end.

(* ================================================================== *)
(** * encryptionService.js *)
(* ================================================================== *)

Record EncryptionService : Type := mkEncryptionService {
  algorithm : string;
  ivLength : nat;
  tagLength : nat
}.

Definition EncryptionService_new : EncryptionService :=
  {| algorithm := "aes-256-gcm"; ivLength := 12; tagLength := 16 |}.

(** The result of [encrypt]: three buffers. *)
Record EncryptedData : Type := mkEncryptedData {
  enc_ciphertext : bytes;
  enc_iv : bytes;
  enc_tag : bytes
}.

(** The result of [serialize]: three base64 strings. *)
Record SerializedData : Type := mkSerializedData {
  ser_ciphertext : string;
  ser_iv : string;
  ser_tag : string
}.

Definition auth_failure_text : string :=
  "Unsupported state or unable to authenticate data".

Section EncryptionServiceMethods.
Variable P : Platform.

(** [encrypt(data, key)]; [key] is a reference to the key object. *)
Definition encrypt (this : EncryptionService) (data : JSValue P)
    (key : option ref) : M World EncryptedData :=
  try_catch
    (let* iv := randomBytes (ivLength this) in
     let* plaintext :=
       match JSON_stringify P data with
       | Some text => ret text
       | None => throw (Error "The first argument must be of type string")
       end in
     let plaintextBuffer := utf8_encode P plaintext in
     let* key :=
       match key with
       | Some r => read r
       | None => throw (Error "The key argument must be of type string")
       end in
     let* out := lift (cipher P (algorithm this) key iv plaintextBuffer) in
     ret {| enc_ciphertext := fst out; enc_iv := iv; enc_tag := snd out |})
    (fun _ => throw (Error "Encryption operation failed")).

(** [decrypt(ciphertext, iv, tag, key)] *)
Definition decrypt (this : EncryptionService) (ciphertext iv tag : bytes)
    (key : ref) : M World (JSValue P) :=
  try_catch
    (let* key := read key in
     let* plaintextBuffer :=
       lift (decipher P (algorithm this) key iv tag ciphertext) in
     let plaintext := utf8_decode P plaintextBuffer in
     lift (JSON_parse P plaintext))
    (fun error =>
       if includes auth_failure_text (message error)
       then throw (Error "Decryption failed: Invalid key or tampered data")
       else throw (Error "Decryption operation failed")).

End EncryptionServiceMethods.

(** [serialize(encryptedData)] *)
Definition serialize (e : EncryptedData) : SerializedData :=
  {| ser_ciphertext := base64_encode (enc_ciphertext e);
     ser_iv := base64_encode (enc_iv e);
     ser_tag := base64_encode (enc_tag e) |}.

(** [deserialize(serializedData)] *)
Definition deserialize (s : SerializedData) : EncryptedData :=
  {| enc_ciphertext := base64_decode (ser_ciphertext s);
     enc_iv := base64_decode (ser_iv s);
     enc_tag := base64_decode (ser_tag s) |}.

(* ================================================================== *)
(** * dataStore.js *)
(* ================================================================== *)

Record StoredRecord : Type := mkStoredRecord {
  rec_id : string;
  rec_keyVersion : Z;
  rec_ciphertext : string;   (** base64 *)
  rec_iv : string;           (** base64 *)
  rec_tag : string;          (** base64 *)
  rec_timestamp : Z;
  rec_metadata : list (string * string)
}.

Record DataStore : Type := mkDataStore {
  storage : gmap string StoredRecord
}.

Definition DataStore_new : DataStore := {| storage := ∅ |}.

(** [store(encryptedData, keyVersion, metadata = {})] *)
Definition DataStore_store (encryptedData : SerializedData) (keyVersion : Z)
    (metadata : option (list (string * string))) : M (DataStore * World) string :=
  let* id := in_world randomUUID in
  let* now := in_world new_Date in
  let record :=
    {| rec_id := id;
       rec_keyVersion := keyVersion;
       rec_ciphertext := ser_ciphertext encryptedData;
       rec_iv := ser_iv encryptedData;
       rec_tag := ser_tag encryptedData;
       rec_timestamp := now;
       rec_metadata := default [] metadata |} in
  let* _ := update (fun this => mkDataStore (<[id := record]> (storage this))) in
  ret id.

(** [retrieve(id)]; [None] is [null]. *)
Definition DataStore_retrieve (this : DataStore) (id : string)
    : option StoredRecord :=
  storage this !! id.

(** [delete(id)] *)
Definition DataStore_delete (id : string) : M (DataStore * World) bool :=
  let* this := self in
  let deleted := bool_decide (is_Some (storage this !! id)) in
  let* _ := update (fun this => mkDataStore (delete id (storage this))) in
  ret deleted.

(** [getAllIds()], as a set *)
Definition getAllIds (this : DataStore) : gset string := dom (storage this).

(** [clear()] *)
Definition DataStore_clear : M (DataStore * World) unit :=
  update (fun _ => mkDataStore ∅).

(* ================================================================== *)
(** * vaultService.js *)
(* ================================================================== *)

Record VaultService : Type := mkVaultService {
  keyManager : KeyManager;
  encryptionService : EncryptionService;
  dataStore : DataStore
}.

Definition set_keyManager (k : KeyManager) (v : VaultService) : VaultService :=
  mkVaultService k (encryptionService v) (dataStore v).

Definition set_dataStore (d : DataStore) (v : VaultService) : VaultService :=
  mkVaultService (keyManager v) (encryptionService v) d.

(** What [store] answers. *)
Record StoreResult : Type := mkStoreResult {
  res_id : string;
  res_keyVersion : Z;
  res_timestamp : Z
}.

(** What [retrieve] answers. *)
Record RetrieveResult (P : Platform) : Type := mkRetrieveResult {
  data : JSValue P;
  meta_keyVersion : Z;
  meta_encryptedAt : Z
}.
Arguments mkRetrieveResult {P}.
Arguments data {P}.
Arguments meta_keyVersion {P}.
Arguments meta_encryptedAt {P}.

(** How a template literal prints a version that may be [null]. *)
Definition show_version (v : option Z) : string :=
  match v with Some n => pretty n | None => "null" end.

Definition expired_message (keyVersion current : Z) (previous : option Z)
    : string :=
  "Key version " ++ pretty keyVersion ++ " is no longer supported. " ++
  "Current: " ++ pretty current ++ ", " ++
  "Previous: " ++ show_version previous.

Section VaultServiceMethods.
Variable P : Platform.

(** [new VaultService(masterKey, rotationIntervalMs)] *)
Definition VaultService_new (masterKey : option string)
    (rotationIntervalMs : option Z) : M World VaultService :=
  let* km := KeyManager_new P masterKey rotationIntervalMs in
  ret {| keyManager := km;
         encryptionService := EncryptionService_new;
         dataStore := DataStore_new |}.

(** [store(data)] *)
Definition store (data : JSValue P) : M (VaultService * World) StoreResult :=
  try_catch
    (let* this := self in
     let '(key, version) := getCurrentKey (keyManager this) in
     let* encryptedData :=
       in_world (encrypt P (encryptionService this) data key) in
     let serialized := serialize encryptedData in
     let* id :=
       zoom dataStore set_dataStore
         (DataStore_store serialized version None) in
     let* now := in_world new_Date in
     ret {| res_id := id; res_keyVersion := version; res_timestamp := now |})
    (fun _ => throw (Error "Failed to store data")).

(** [retrieve(id)] *)
Definition retrieve (id : string)
    : M (VaultService * World) (RetrieveResult P) :=
  try_catch
    (let* this := self in
     match DataStore_retrieve (dataStore this) id with
     | None => throw (Error "Record not found")
     | Some record =>
         let* _ :=
           if negb (isVersionSupported (keyManager this)
                      (rec_keyVersion record))
           then
             let current := snd (getCurrentKey (keyManager this)) in
             let* info := lift (getKeyInfo (keyManager this)) in
             throw (Error (expired_message (rec_keyVersion record) current
                             (info_previousVersion info)))
           else ret tt in
         match getKeyByVersion (keyManager this) (rec_keyVersion record) with
         | None => throw (Error "Decryption key not available")
         | Some key =>
             let encryptedData :=
               deserialize {| ser_ciphertext := rec_ciphertext record;
                              ser_iv := rec_iv record;
                              ser_tag := rec_tag record |} in
             let* decryptedData :=
               in_world (decrypt P (encryptionService this)
                           (enc_ciphertext encryptedData)
                           (enc_iv encryptedData)
                           (enc_tag encryptedData) key) in
             ret {| data := decryptedData;
                    meta_keyVersion := rec_keyVersion record;
                    meta_encryptedAt := rec_timestamp record |}
         end
     end)
    (fun error => throw error).

(** [forceRotation()] *)
Definition Vault_forceRotation : M (VaultService * World) unit :=
  zoom keyManager set_keyManager (forceRotation P).

(** [destroy()] *)
Definition Vault_destroy : M (VaultService * World) unit :=
  let* _ := zoom keyManager set_keyManager (destroy) in
  zoom dataStore set_dataStore DataStore_clear.

End VaultServiceMethods.

(** ** The HTTP layer's view of a failed [retrieve] *)

(** The status the [/api/vault/retrieve] handler answers with when
    [retrieve] throws. *)
Definition retrieve_status (error : JsError) : Z :=
  if String.eqb (message error) "Record not found" then 404
  else if includes "no longer supported" (message error) then 410
  else 500.

(* ================================================================== *)
(** * Histories *)
(* ================================================================== *)

(** Between two calls the clock moves on and randomness may be consumed
    elsewhere; the heap and the timers are the program's own. *)
Inductive ambient : World -> World -> Prop :=
| ambient_intro w e d c :
    ambient w (mkWorld (heap w) e d c (timers w) (next_timer w)).

(** The key manager on its own: created, then rotated [n] times, by
    [forceRotation] or by the interval timer, whether or not the rotation
    completed normally. *)
Inductive km_reachable (P : Platform) : nat -> KeyManager * World -> Prop :=
| km_new masterKey interval w this w' :
    KeyManager_new P masterKey interval w = (Return this, w') ->
    km_reachable P 0 (this, w')
| km_rotate n s :
    km_reachable P n s -> km_reachable P (S n) (snd (rotateKey P s))
| km_ambient n this w w' :
    km_reachable P n (this, w) -> ambient w w' -> km_reachable P n (this, w').

(** The calls a vault receives. *)
Inductive VaultCall (P : Platform) : Type :=
| CallStore (data : JSValue P)
| CallRetrieve (id : string)
| CallForceRotation
| TimerFires.
Arguments CallStore {P}.
Arguments CallRetrieve {P}.
Arguments CallForceRotation {P}.
Arguments TimerFires {P}.

(** The state a call leaves behind, however it completes. *)
Definition after_call {P} (c : VaultCall P) (s : VaultService * World)
    : VaultService * World :=
  match c with
  | CallStore data => snd (store P data s)
  | CallRetrieve id => snd (retrieve P id s)
  | CallForceRotation => snd (Vault_forceRotation P s)
  | TimerFires => snd (zoom keyManager set_keyManager (rotateKey P) s)
  end.

Definition is_rotation {P} (c : VaultCall P) : nat :=
  match c with
  | CallForceRotation | TimerFires => 1
  | _ => 0
  end.

(** [history P n s s']: the vault goes from [s] to [s'] through calls of
    which exactly [n] are rotations. *)
Inductive history (P : Platform)
    : nat -> VaultService * World -> VaultService * World -> Prop :=
| history_nil s : history P 0 s s
| history_call n s s' (c : VaultCall P) :
    history P n s s' ->
    history P (n + is_rotation c) s (after_call c s')
| history_ambient n s v w w' :
    history P n s (v, w) -> ambient w w' -> history P n s (v, w').

(** The states of a vault that was created by its constructor. *)
Definition vault_reachable (P : Platform) (s : VaultService * World) : Prop :=
  exists masterKey interval w v0 w0 n,
    VaultService_new P masterKey interval w = (Return v0, w0) /\
    history P n (v0, w0) s.

(* ================================================================== *)
(** * A small platform to run the model on *)
(* ================================================================== *)

(** The primitives below are stand-ins with the right shapes: a keyed
    stream in place of HKDF, and a stream cipher with a keyed checksum in
    place of AES-GCM.  Text is its own JSON value, one octet per
    character. *)
Module Demo.

Definition xor_byte (a b : byte) : byte :=
  let '(a0, (a1, (a2, (a3, (a4, (a5, (a6, a7))))))) := Byte.to_bits a in
  let '(b0, (b1, (b2, (b3, (b4, (b5, (b6, b7))))))) := Byte.to_bits b in
  Byte.of_bits
    (xorb a0 b0, (xorb a1 b1, (xorb a2 b2, (xorb a3 b3,
     (xorb a4 b4, (xorb a5 b5, (xorb a6 b6, xorb a7 b7))))))).

Definition checksum (bs : bytes) : N :=
  fold_right (fun b acc => (Byte.to_N b + 31 * acc) mod 65521)%N 7%N bs.

Definition stream (seed : N) (n : nat) : bytes :=
  map (fun i => byte_of_N (seed + 7 * N.of_nat i + 1)) (seq 0 n).

Definition xor_bytes (a b : bytes) : bytes := zip_with xor_byte a b.

Definition hkdf (digest : string) (ikm salt info : bytes) (keylen : nat)
    : Completion bytes :=
  Return (stream (checksum (ikm ++ salt ++ info)) keylen).

Definition seal (alg : string) (key iv pt : bytes)
    : Completion (bytes * bytes) :=
  if negb (String.eqb alg "aes-256-gcm") then Throw (Error "Unknown cipher")
  else if negb (length key =? 32)%nat then Throw (Error "Invalid key length")
  else
    let ct := xor_bytes pt (stream (checksum (key ++ iv)) (length pt)) in
    Return (ct, stream (checksum (key ++ iv ++ ct)) 16).

Definition open (alg : string) (key iv tag ct : bytes) : Completion bytes :=
  if negb (String.eqb alg "aes-256-gcm") then Throw (Error "Unknown cipher")
  else if negb (length key =? 32)%nat then Throw (Error "Invalid key length")
  else if bool_decide (tag = stream (checksum (key ++ iv ++ ct)) 16)
  then Return (xor_bytes ct (stream (checksum (key ++ iv)) (length ct)))
  else Throw (Error auth_failure_text).

Definition platform : Platform :=
  {| JSValue := string;
     JSON_stringify := Some;
     JSON_parse := Return;
     utf8_encode := list_byte_of_string;
     utf8_decode := string_of_list_byte;
     hkdfSync := hkdf;
     cipher := seal;
     decipher := open |}.

(** The same platform, except that the derivation for version 2 throws. *)
Definition failing_hkdf (digest : string) (ikm salt info : bytes)
    (keylen : nat) : Completion bytes :=
  if bool_decide (info = list_byte_of_string "vault-key-v2")
  then Throw (Error "Key derivation failed")
  else hkdf digest ikm salt info keylen.

Definition failing_platform : Platform :=
  {| JSValue := string;
     JSON_stringify := Some;
     JSON_parse := Return;
     utf8_encode := list_byte_of_string;
     utf8_decode := string_of_list_byte;
     hkdfSync := failing_hkdf;
     cipher := seal;
     decipher := open |}.

Definition world : World :=
  {| heap := [];
     entropy := fun i => byte_of_N (N.of_nat (17 + 29 * i));
     drawn := 0;
     clock := 1700000000000;
     timers := [];
     next_timer := 0 |}.

(** Sixty-four hexadecimal digits. *)
Definition master_key : string :=
  "000102030405060708090a0b0c0d0e0f101112131415161718191a1b1c1d1e1f".

(** Sixty-four characters of which the last two are not hexadecimal
    digits. *)
Definition not_hex : string :=
  "000102030405060708090a0b0c0d0e0f101112131415161718191a1b1c1d1ezz".

(** The value of a call that is known to complete normally. *)
Definition value {A} (d : A) (c : Completion A) : A :=
  match c with Return a => a | Throw _ => d end.

Definition blank : KeyManager :=
  mkKeyManager 0 0 0 None None None None None.

(** A key manager right after its construction, and after one and two
    rotations. *)
Definition created : KeyManager * World :=
  let r := KeyManager_new platform (Some master_key) None world in
  (value blank (fst r), snd r).

Definition rotated_once : KeyManager * World :=
  snd (rotateKey platform created).

Definition rotated_twice : KeyManager * World :=
  snd (rotateKey platform rotated_once).

(** A key manager on the platform whose second derivation throws. *)
Definition created_failing : KeyManager * World :=
  let r := KeyManager_new failing_platform (Some master_key) None world in
  (value blank (fst r), snd r).

(** A vault right after its construction. *)
Definition vault : VaultService * World :=
  let r := VaultService_new platform (Some master_key) (Some 5000) world in
  (value (mkVaultService blank EncryptionService_new DataStore_new) (fst r),
   snd r).

Definition payload : string := "{'user':'alice'}".

(** The vault after a [store], and after two rotations more. *)
Definition stored : Completion StoreResult * (VaultService * World) :=
  store platform payload vault.

Definition receipt : StoreResult :=
  value (mkStoreResult "" 0 0) (fst stored).

Definition aged : VaultService * World :=
  snd (Vault_forceRotation platform
         (snd (Vault_forceRotation platform (snd stored)))).

End Demo.

(* ================================================================== *)
(** * Notions used in the statements *)
(* ================================================================== *)

(** The world after [randomBytes n]. *)
Definition drew (n : nat) (w : World) : World :=
  mkWorld (heap w) (entropy w) (drawn w + n)%nat (clock w) (timers w)
    (next_timer w).

(** The octets [randomBytes n] returns in [w]. *)
Definition fresh_bytes (n : nat) (w : World) : bytes :=
  map (entropy w) (seq (drawn w) n).

(** The octets behind a reference. *)
Definition deref (w : World) (r : ref) : bytes :=
  match heap w !! r with Some o => contents o | None => [] end.

(** The receiver of [rotateKey] once the slots have been shifted. *)
Definition shifted (this : KeyManager) : KeyManager :=
  set_currentVersion (currentVersion this + 1)
    (set_previousVersion (Some (currentVersion this))
       (set_previousKey (currentKey this) this)).

(** ** What every reachable key manager satisfies *)

Record km_invariant (n : nat) (this : KeyManager) : Prop := {
  inv_version : currentVersion this = Z.of_nat n + 1;
  inv_current : is_Some (currentKey this);
  inv_rotated : is_Some (lastRotationTime this);
  inv_first : n = 0%nat ->
              previousVersion this = None /\ previousKey this = None;
  inv_later : (0 < n)%nat ->
              previousVersion this = Some (Z.of_nat n) /\
              is_Some (previousKey this)
}.

(** The state in which the fills of [destroy] start. *)
Definition timer_cleared (s : KeyManager * World) : KeyManager * World :=
  match rotationTimer (fst s) with
  | Some t =>
      (set_rotationTimer None (fst s),
       mkWorld (heap (snd s)) (entropy (snd s)) (drawn (snd s))
         (clock (snd s)) (filter (fun t' => t' ≠ t) (timers (snd s)))
         (next_timer (snd s)))
  | None => s
  end.

(** A reference leads to a key that [hkdfSync] derived. *)
Definition derived_key (P : Platform) (w : World) (r : ref) : Prop :=
  exists derived ikm salt info,
    heap w !! r = Some (ArrayBuffer derived) /\
    hkdfSync P "sha256" ikm salt info 32 = Return derived.

(** What the references of a reachable key manager lead to. *)
Record heap_invariant (P : Platform) (s : KeyManager * World) : Prop := {
  hi_master :
    exists secret, heap (snd s) !! masterKeyBuffer (fst s) = Some (Buffer secret);
  hi_current :
    forall r, currentKey (fst s) = Some r -> derived_key P (snd s) r;
  hi_previous :
    forall r, previousKey (fst s) = Some r -> derived_key P (snd s) r
}.

(** The record that [store] files. *)
Definition filed (version : Z) (e : EncryptedData) (id : string) (now : Z)
    : StoredRecord :=
  {| rec_id := id;
     rec_keyVersion := version;
     rec_ciphertext := base64_encode (enc_ciphertext e);
     rec_iv := base64_encode (enc_iv e);
     rec_tag := base64_encode (enc_tag e);
     rec_timestamp := now;
     rec_metadata := [] |}.

(** The six-bit groups that [base64_encode] prints. *)
Fixpoint sextets (bs : bytes) : list N :=
  match bs with
  | [] => []
  | [a] =>
      let x := Byte.to_N a in [x / 4; (x mod 4) * 16]%N
  | [a; b] =>
      let x := Byte.to_N a in
      let y := Byte.to_N b in
      [x / 4; (x mod 4) * 16 + y / 16; (y mod 16) * 4]%N
  | a :: b :: c :: rest =>
      let x := Byte.to_N a in
      let y := Byte.to_N b in
      let z := Byte.to_N c in
      (x / 4 :: (x mod 4) * 16 + y / 16 :: (y mod 16) * 4 + z / 64 :: z mod 64
         :: sextets rest)%N
  end.

(** What [decrypt] throws for an exception [e] of the platform. *)
Definition decrypt_error (e : JsError) : JsError :=
  if includes auth_failure_text (message e)
  then Error "Decryption failed: Invalid key or tampered data"
  else Error "Decryption operation failed".

(* ================================================================== *)
(** * dataStore.js and vaultService.js: statistics *)
(* ================================================================== *)

Record StoreStats : Type := mkStoreStats {
  totalRecords : nat;
  recordsByVersion : gmap Z nat;
  oldestRecord : option Z            (** [null] for an empty store *)
}.

(** The body of the [forEach]:
    [versionCounts[v] = (versionCounts[v] || 0) + 1] for the version [v]
    of the record. *)
Definition count_version (versionCounts : gmap Z nat) (record : StoredRecord)
    : gmap Z nat :=
  <[rec_keyVersion record :=
      (default 0 (versionCounts !! rec_keyVersion record) + 1)%nat]>
    versionCounts.

(** The callback of the [reduce]:
    [r.timestamp < oldest.timestamp ? r : oldest]. *)
Definition older (oldest r : StoredRecord) : StoredRecord :=
  if rec_timestamp r <? rec_timestamp oldest then r else oldest.

(** The body of [getStats()], for the records as the Map hands them out
    and the size of the Map. *)
Definition stats_of (size : nat) (records : list StoredRecord) : StoreStats :=
  {| totalRecords := size;
     recordsByVersion := fold_left count_version records ∅;
     oldestRecord :=
       match records with
       | [] => None
       | first :: rest => Some (rec_timestamp (fold_left older rest first))
       end |}.

(** [getStats()] of the data store.  The Map of the source hands its
    records out in the order of their insertion, which the finite map does
    not keep; [stats_of] is shown below not to depend on the order. *)
Definition DataStore_getStats (this : DataStore) : StoreStats :=
  stats_of (size (storage this)) (map_to_list (storage this)).*2.

Record VaultStats : Type := mkVaultStats {
  keyInfo : KeyInfo;
  storeStats : StoreStats
}.

(** [getStats()] of the vault *)
Definition Vault_getStats (this : VaultService) : Completion VaultStats :=
  match getKeyInfo (keyManager this) with
  | Return info =>
      Return {| keyInfo := info;
                storeStats := DataStore_getStats (dataStore this) |}
  | Throw e => Throw e
  end.

(* ================================================================== *)
(** * The HTTP handlers of the server *)
(* ================================================================== *)

(** What a handler hands to [res.json]. *)
Inductive ResponseBody (P : Platform) : Type :=
| BodyError (error : string) (detail : option string) (id : option string)
| BodyStored (result : StoreResult)
| BodyRetrieved (result : RetrieveResult P)
| BodyStats (stats : VaultStats)
| BodyRotated (text : string) (info : KeyInfo)
| BodyHealth (state : string) (timestamp : Z).
Arguments BodyError {P}.
Arguments BodyStored {P}.
Arguments BodyRetrieved {P}.
Arguments BodyStats {P}.
Arguments BodyRotated {P}.
Arguments BodyHealth {P}.

Record Response (P : Platform) : Type := mkResponse {
  resp_status : Z;
  resp_body : ResponseBody P
}.
Arguments mkResponse {P}.
Arguments resp_status {P}.
Arguments resp_body {P}.

Section Handlers.
Variable P : Platform.

(** Whether a value counts as true in a condition. *)
Variable truthy : JSValue P -> bool.

(** [POST /api/vault/store]; [data] is [req.body.data], [None] when the
    body has no such field. *)
Definition post_store (data : option (JSValue P))
    (s : VaultService * World) : Response P * (VaultService * World) :=
  match data with
  | Some data =>
      if truthy data then
        match store P data s with
        | (Return result, s') => (mkResponse 201 (BodyStored result), s')
        | (Throw error, s') =>
            (mkResponse 500
               (BodyError "Failed to store data" (Some (message error)) None),
             s')
        end
      else (mkResponse 400 (BodyError "Missing required field: data" None None), s)
  | None => (mkResponse 400 (BodyError "Missing required field: data" None None), s)
  end.

(** [GET /api/vault/retrieve?id=...]; [id] is [req.query.id]. *)
Definition get_retrieve (id : option string)
    (s : VaultService * World) : Response P * (VaultService * World) :=
  match id with
  | None =>
      (mkResponse 400
         (BodyError "Missing required query parameter: id" None None), s)
  | Some id =>
      if String.eqb id "" then
        (mkResponse 400
           (BodyError "Missing required query parameter: id" None None), s)
      else
        match retrieve P id s with
        | (Return result, s') => (mkResponse 200 (BodyRetrieved result), s')
        | (Throw error, s') =>
            if String.eqb (message error) "Record not found" then
              (mkResponse 404 (BodyError "Record not found" None (Some id)), s')
            else if includes "no longer supported" (message error) then
              (mkResponse 410
                 (BodyError "Key version expired" (Some (message error)) None),
               s')
            else
              (mkResponse 500
                 (BodyError "Failed to retrieve data" (Some (message error))
                    None),
               s')
        end
  end.

(** [GET /api/vault/stats] *)
Definition get_stats (s : VaultService * World)
    : Response P * (VaultService * World) :=
  match Vault_getStats (fst s) with
  | Return stats => (mkResponse 200 (BodyStats stats), s)
  | Throw _ => (mkResponse 500 (BodyError "Failed to get stats" None None), s)
  end.

(** [POST /api/vault/rotate] *)
Definition post_rotate (s : VaultService * World)
    : Response P * (VaultService * World) :=
  match Vault_forceRotation P s with
  | (Return _, s') =>
      match Vault_getStats (fst s') with
      | Return stats =>
          (mkResponse 200
             (BodyRotated "Key rotation completed" (keyInfo stats)), s')
      | Throw _ =>
          (mkResponse 500 (BodyError "Failed to rotate key" None None), s')
      end
  | (Throw _, s') =>
      (mkResponse 500 (BodyError "Failed to rotate key" None None), s')
  end.

(** [GET /health] *)
Definition get_health (s : VaultService * World)
    : Response P * (VaultService * World) :=
  (mkResponse 200 (BodyHealth "healthy" (clock (snd s))), s).

End Handlers.

(* ================================================================== *)
(** * Runs of the model on the small platform *)
(* ================================================================== *)

Module Scenario.

(** The key reference and the world of the constructed vault. *)
Definition key : ref := 1%nat.

(** What [encrypt] makes of the payload there. *)
Definition sealed : EncryptedData :=
  Demo.value (mkEncryptedData [] [] [])
    (fst (encrypt Demo.platform EncryptionService_new Demo.payload (Some key)
            (snd Demo.vault))).

(** The vault after a [store] and one rotation. *)
Definition rotated : VaultService * World :=
  snd (Vault_forceRotation Demo.platform (snd Demo.stored)).

(** A vault whose key manager holds no key. *)
Definition keyless : VaultService * World :=
  (mkVaultService Demo.blank EncryptionService_new DataStore_new, Demo.world).


(** The vault after a [store] and three rotations. *)
Definition thrice : VaultService * World :=
  snd (Vault_forceRotation Demo.platform Demo.aged).

(** Truth of a value of the small platform, whose values are texts. *)
Definition truthy (value : JSValue Demo.platform) : bool :=
  negb (String.eqb value "").

(** The vault after a second [store], made after the first rotation. *)
Definition restocked : VaultService * World :=
  snd (store Demo.platform "{'n':2}" rotated).

End Scenario.

(* ================================================================== *)
(** * Equations of the methods *)
(* ================================================================== *)

Lemma rotateKey_eq P this w :
  rotateKey P (this, w) =
  match hkdfSync P "sha256" (deref w (masterKeyBuffer this))
          (fresh_bytes 32 w) (key_info P (currentVersion this + 1)) 32 with
  | Return derived =>
      (Return tt,
       (set_lastRotationTime (Some (clock w))
          (set_currentKey (Some (length (heap w))) (shifted this)),
        set_heap (heap w ++ [ArrayBuffer derived]) (drew 32 w)))
  | Throw e => (Throw e, (shifted this, drew 32 w))
  end.
Proof.
  unfold rotateKey, bind, update, in_world, self, lift, randomBytes, read,
    alloc, new_Date; cbn.
  destruct (hkdfSync P _ _ _ _ _); reflexivity.
Qed.

Lemma lookup_snoc {A} (l : list A) (x : A) :
  (l ++ [x])%list !! length l = Some x.
Proof. by apply list_lookup_middle. Qed.

Lemma string_empty_length (s : string) :
  String.eqb s "" = true -> String.length s = 0%nat.
Proof. intros H. apply String.eqb_eq in H. by subst. Qed.

(** The guard of the constructor only looks at the length. *)
Lemma guard_length (s : string) :
  String.eqb s "" || negb (String.length s =? 64)%nat = false <->
  String.length s = 64%nat.
Proof.
  split.
  - intros H. apply orb_false_elim in H as [_ H].
    apply negb_false_iff, Nat.eqb_eq in H. exact H.
  - intros H. apply orb_false_intro.
    + destruct (String.eqb s "") eqn:E; [|done].
      apply string_empty_length in E. lia.
    + apply negb_false_iff, Nat.eqb_eq, H.
Qed.

Lemma KeyManager_new_eq P s interval w :
  String.length s = 64%nat ->
  KeyManager_new P (Some s) interval w =
  match hkdfSync P "sha256" (hex_decode s) (fresh_bytes 32 w)
          (key_info P 1) 32 with
  | Return derived =>
      (Return {| masterKeyBuffer := length (heap w);
                 rotationIntervalMs := default (60 * 60 * 1000) interval;
                 currentVersion := 1;
                 previousVersion := None;
                 currentKey := Some (S (length (heap w)));
                 previousKey := None;
                 rotationTimer := Some (next_timer w);
                 lastRotationTime := Some (clock w) |},
       mkWorld (heap w ++ [Buffer (hex_decode s); ArrayBuffer derived])
         (entropy w) (drawn w + 32)%nat (clock w)
         (next_timer w :: timers w) (S (next_timer w)))
  | Throw e =>
      (Throw e, drew 32 (set_heap (heap w ++ [Buffer (hex_decode s)]) w))
  end.
Proof.
  intros Hlen. unfold KeyManager_new.
  apply guard_length in Hlen. rewrite Hlen.
  unfold bind, construct, _generateInitialKey, _startRotation, bind, update,
    in_world, self, lift, randomBytes, read, alloc, new_Date, setInterval; cbn.
  rewrite lookup_snoc; cbn.
  destruct (hkdfSync P _ _ _ _ _); cbn; [|reflexivity].
  rewrite length_app, Nat.add_comm, <- app_assoc. reflexivity.
Qed.

Lemma KeyManager_new_guard P masterKey interval w :
  (masterKey = None \/
   exists s, masterKey = Some s /\ String.length s <> 64%nat) ->
  KeyManager_new P masterKey interval w = (Throw invalid_master_key, w).
Proof.
  intros [-> | (s & -> & Hs)]; [reflexivity|].
  unfold KeyManager_new.
  destruct (String.eqb s "" || negb (String.length s =? 64)%nat) eqn:E;
    [reflexivity|].
  apply guard_length in E. contradiction.
Qed.

Lemma km_reachable_invariant P n s :
  km_reachable P n s -> km_invariant n (fst s).
Proof.
  induction 1 as [mk interval w this w' Hnew | n s _ IH | n this w w' _ IH _].
  - destruct mk as [s|]; [|discriminate].
    destruct (decide (String.length s = 64%nat)) as [Hlen|Hlen].
    + rewrite KeyManager_new_eq in Hnew by done.
      destruct (hkdfSync P _ _ _ _ _); [|discriminate].
      injection Hnew as <- <-. split; cbn; eauto; lia.
    + rewrite KeyManager_new_guard in Hnew by eauto. discriminate.
  - destruct s as [this w]. rewrite rotateKey_eq. cbn in IH.
    destruct IH as [Hv Hc Hr _ _].
    destruct (hkdfSync P _ _ _ _ _); cbn.
    + split; cbn; eauto; try lia.
      intros _. split; [f_equal; lia | done].
    + split; cbn; eauto; try lia.
      intros _. split; [f_equal; lia | done].
  - exact IH.
Qed.

Lemma demo_created :
  KeyManager_new Demo.platform (Some Demo.master_key) None Demo.world =
  (Return (fst Demo.created), snd Demo.created).
Proof. vm_compute. reflexivity. Qed.

Lemma demo_created_reachable : km_reachable Demo.platform 0 Demo.created.
Proof.
  rewrite (surjective_pairing Demo.created).
  eapply km_new. apply demo_created.
Qed.

Lemma demo_rotated_twice_reachable :
  km_reachable Demo.platform 2 Demo.rotated_twice.
Proof. do 2 apply km_rotate. apply demo_created_reachable. Qed.

(* ================================================================== *)
(** * Versions *)
(* ================================================================== *)

(** C2.  After construction and [n] rotations the current version is
    [n + 1]: it starts at 1 and every rotation, by [forceRotation] or by
    the timer, adds exactly one.  Whenever the previous slot holds a key,
    the previous version is the current one minus one. *)
Theorem rotation_adjacency P n s :
  km_reachable P n s ->
  currentVersion (fst s) = Z.of_nat n + 1 /\
  (is_Some (previousKey (fst s)) ->
   previousVersion (fst s) = Some (currentVersion (fst s) - 1)) /\
  currentVersion (fst (snd (rotateKey P s))) = currentVersion (fst s) + 1.
Proof.
  intros Hreach.
  pose proof (km_reachable_invariant _ _ _ Hreach) as Hinv.
  pose proof (km_reachable_invariant _ _ _ (km_rotate _ _ _ Hreach)) as Hnext.
  destruct Hinv as [Hv _ _ Hfirst Hlater].
  split; [exact Hv|]. split.
  - intros Hprev. destruct n as [|n].
    + destruct (Hfirst eq_refl) as [_ Hnone].
      rewrite Hnone in Hprev. by destruct Hprev.
    + destruct Hlater as [Hpv _]; [lia|].
      rewrite Hpv, Hv. f_equal. lia.
  - rewrite (inv_version _ _ Hnext), Hv. lia.
Qed.

Lemma rotation_adjacency_witness :
  km_reachable Demo.platform 2 Demo.rotated_twice /\
  currentVersion (fst Demo.rotated_twice) = 3 /\
  (is_Some (previousKey (fst Demo.rotated_twice)) ->
   previousVersion (fst Demo.rotated_twice) =
   Some (currentVersion (fst Demo.rotated_twice) - 1)) /\
  currentVersion (fst (snd (rotateKey Demo.platform Demo.rotated_twice))) =
  currentVersion (fst Demo.rotated_twice) + 1.
Proof.
  split; [apply demo_rotated_twice_reachable|].
  apply (rotation_adjacency Demo.platform 2 Demo.rotated_twice).
  apply demo_rotated_twice_reachable.
Defined.

(** C3.  In every reachable state [getKeyByVersion v] is the current key
    when [v] is the current version, the previous key when [v] is the
    previous version and the previous slot holds a key, and [null]
    otherwise; [isVersionSupported v] holds exactly when
    [getKeyByVersion v] is a key. *)
Theorem key_lookup P n s (v : Z) :
  km_reachable P n s ->
  (v = currentVersion (fst s) ->
   getKeyByVersion (fst s) v = currentKey (fst s)) /\
  (previousVersion (fst s) = Some v -> is_Some (previousKey (fst s)) ->
   getKeyByVersion (fst s) v = previousKey (fst s)) /\
  (v <> currentVersion (fst s) ->
   ~ (previousVersion (fst s) = Some v /\ is_Some (previousKey (fst s))) ->
   getKeyByVersion (fst s) v = None) /\
  (isVersionSupported (fst s) v = true <->
   is_Some (getKeyByVersion (fst s) v)).
Proof.
  intros Hreach.
  destruct (km_reachable_invariant _ _ _ Hreach) as [Hv Hc _ Hfirst Hlater].
  destruct s as [this w]; cbn in *.
  unfold getKeyByVersion, isVersionSupported.
  repeat split.
  - intros ->. by rewrite Z.eqb_refl.
  - intros Hpv Hpk.
    destruct (Z.eqb_spec v (currentVersion this)) as [->|_].
    + destruct n as [|n].
      * destruct (Hfirst eq_refl) as [Hnone _]. congruence.
      * destruct Hlater as [Hpv' _]; [lia|].
        rewrite Hpv' in Hpv. injection Hpv as Hpv. lia.
    + rewrite !bool_decide_eq_true_2 by done. reflexivity.
  - intros Hne Hnot.
    destruct (Z.eqb_spec v (currentVersion this)) as [?|_]; [done|].
    destruct (bool_decide (previousVersion this = Some v)) eqn:E1;
      [|reflexivity].
    destruct (bool_decide (is_Some (previousKey this))) eqn:E2;
      [|reflexivity].
    apply bool_decide_eq_true_1 in E1, E2. by destruct Hnot.
  - destruct (Z.eqb_spec v (currentVersion this)) as [_|_]; [done|].
    cbn. intros H. apply andb_true_iff in H as [H1 H2].
    apply bool_decide_eq_true_1 in H1, H2.
    rewrite bool_decide_eq_true_2 by done.
    rewrite bool_decide_eq_true_2; [|by destruct (previousKey this)].
    by destruct (previousKey this).
  - destruct (Z.eqb_spec v (currentVersion this)) as [_|_]; [done|].
    cbn.
    destruct (bool_decide (previousVersion this = Some v)); cbn;
      [|by intros []].
    destruct (previousKey this) eqn:E; cbn; [done|].
    intros [? ?]. discriminate.
Qed.

Lemma key_lookup_witness :
  km_reachable Demo.platform 2 Demo.rotated_twice /\
  getKeyByVersion (fst Demo.rotated_twice) 3 = Some 3%nat /\
  getKeyByVersion (fst Demo.rotated_twice) 2 = Some 2%nat /\
  getKeyByVersion (fst Demo.rotated_twice) 1 = None /\
  isVersionSupported (fst Demo.rotated_twice) 1 = false.
Proof.
  split; [apply demo_rotated_twice_reachable|].
  pose proof (key_lookup Demo.platform 2 Demo.rotated_twice 3
                demo_rotated_twice_reachable) as (H3 & _).
  pose proof (key_lookup Demo.platform 2 Demo.rotated_twice 2
                demo_rotated_twice_reachable) as (_ & H2 & _).
  pose proof (key_lookup Demo.platform 2 Demo.rotated_twice 1
                demo_rotated_twice_reachable) as (_ & _ & H1 & H1').
  split; [apply H3; reflexivity|].
  split; [apply H2; [reflexivity | by eexists]|].
  assert (getKeyByVersion (fst Demo.rotated_twice) 1 = None) as Hnone.
  { apply H1; [by vm_compute | intros [Hpv _]; by vm_compute in Hpv]. }
  split; [exact Hnone|].
  apply not_true_is_false. intros E.
  apply H1' in E. rewrite Hnone in E. by destruct E.
Defined.

(* ================================================================== *)
(** * Rotation and the key objects *)
(* ================================================================== *)

Lemma rotateKey_heap_prefix P s :
  exists tail, heap (snd (snd (rotateKey P s))) = (heap (snd s) ++ tail)%list.
Proof.
  destruct s as [this w]. rewrite rotateKey_eq.
  destruct (hkdfSync P _ _ _ _ _); cbn.
  - by eexists.
  - exists []. by rewrite app_nil_r.
Qed.

(** A rotation on the failing platform throws in the middle. *)
Lemma demo_failing_rotation :
  fst (rotateKey Demo.failing_platform Demo.created_failing) =
  Throw (Error "Key derivation failed").
Proof. vm_compute. reflexivity. Qed.

(** C6, as stated, fails: on a platform whose derivation for version 2
    throws, the rotation throws and leaves the version numbers and the
    previous slot changed. *)
Lemma failed_rotation_changes_state :
  fst (rotateKey Demo.failing_platform Demo.created_failing) =
    Throw (Error "Key derivation failed") /\
  currentVersion (fst Demo.created_failing) = 1 /\
  previousVersion (fst Demo.created_failing) = None /\
  previousKey (fst Demo.created_failing) = None /\
  let after := snd (rotateKey Demo.failing_platform Demo.created_failing) in
  currentVersion (fst after) = 2 /\
  previousVersion (fst after) = Some 1 /\
  previousKey (fst after) = Some 1%nat /\
  fst after <> fst Demo.created_failing.
Proof. vm_compute. repeat split; discriminate. Qed.

(** C6, amended.  When the derivation throws, [rotateKey] throws the same
    error; the current key, the time of the last rotation and every binary
    object are as before, while the slots have already been shifted: the
    current version is one higher, and the previous version and key are
    the former current ones. *)
Theorem failed_rotation_state P this w e s' :
  rotateKey P (this, w) = (Throw e, s') ->
  currentKey (fst s') = currentKey this /\
  lastRotationTime (fst s') = lastRotationTime this /\
  masterKeyBuffer (fst s') = masterKeyBuffer this /\
  heap (snd s') = heap w /\
  timers (snd s') = timers w /\
  currentVersion (fst s') = currentVersion this + 1 /\
  previousVersion (fst s') = Some (currentVersion this) /\
  previousKey (fst s') = currentKey this.
Proof.
  rewrite rotateKey_eq.
  destruct (hkdfSync P _ _ _ _ _); [discriminate|].
  intros H. injection H as _ <-. cbn. repeat split.
Qed.

Lemma failed_rotation_state_witness :
  rotateKey Demo.failing_platform Demo.created_failing =
    (Throw (Error "Key derivation failed"),
     snd (rotateKey Demo.failing_platform Demo.created_failing)) /\
  currentKey (fst (snd (rotateKey Demo.failing_platform Demo.created_failing)))
    = Some 1%nat /\
  currentVersion
    (fst (snd (rotateKey Demo.failing_platform Demo.created_failing))) = 2.
Proof.
  assert (rotateKey Demo.failing_platform
            (fst Demo.created_failing, snd Demo.created_failing) =
          (Throw (Error "Key derivation failed"),
           snd (rotateKey Demo.failing_platform Demo.created_failing)))
    as Hrun by (vm_compute; reflexivity).
  split; [exact Hrun|].
  destruct (failed_rotation_state _ _ _ _ _ Hrun)
    as (Hk & _ & _ & _ & _ & Hv & _).
  split; [rewrite Hk | rewrite Hv]; reflexivity.
Defined.

(** C7, as stated, fails: the second rotation discards the key of
    version 1, and the octets of that key are still in memory, unchanged
    and not zero. *)
Lemma discarded_key_keeps_bytes :
  previousKey (fst Demo.rotated_once) = Some 1%nat /\
  fst (rotateKey Demo.platform Demo.rotated_once) = Return tt /\
  previousKey (fst Demo.rotated_twice) = Some 2%nat /\
  currentKey (fst Demo.rotated_twice) = Some 3%nat /\
  deref (snd Demo.rotated_twice) 1 = deref (snd Demo.rotated_once) 1 /\
  all_zero (deref (snd Demo.rotated_twice) 1) = false.
Proof. vm_compute. repeat split. Qed.

(** C7, amended.  [rotateKey] discards the old previous key by overwriting
    the reference to it with the reference to the current key, and does not
    zero it: every binary object that existed before the call, the
    discarded key included, is the same after it. *)
Theorem rotation_keeps_old_bytes P s r o :
  heap (snd s) !! r = Some o ->
  heap (snd (snd (rotateKey P s))) !! r = Some o /\
  previousKey (fst (snd (rotateKey P s))) = currentKey (fst s).
Proof.
  intros Hr. split.
  - destruct (rotateKey_heap_prefix P s) as [tail ->].
    by apply lookup_app_l_Some.
  - destruct s as [this w]. rewrite rotateKey_eq.
    destruct (hkdfSync P _ _ _ _ _); reflexivity.
Qed.

Lemma rotation_keeps_old_bytes_witness :
  heap (snd Demo.rotated_once) !! 1%nat =
    Some (ArrayBuffer (deref (snd Demo.created) 1)) /\
  heap (snd Demo.rotated_twice) !! 1%nat =
    Some (ArrayBuffer (deref (snd Demo.created) 1)) /\
  previousKey (fst Demo.rotated_twice) = currentKey (fst Demo.rotated_once).
Proof.
  assert (heap (snd Demo.rotated_once) !! 1%nat =
          Some (ArrayBuffer (deref (snd Demo.created) 1))) as Hold
    by (vm_compute; reflexivity).
  split; [exact Hold|].
  exact (rotation_keeps_old_bytes Demo.platform Demo.rotated_once 1 _ Hold).
Defined.

(* ================================================================== *)
(** * Construction *)
(* ================================================================== *)

(** A secret of any other length than 64 characters, or none at all, is
    refused with the length error, and nothing has happened. *)
Lemma constructor_rejects_wrong_length P masterKey interval w :
  (masterKey = None \/
   exists s, masterKey = Some s /\ String.length s <> 64%nat) ->
  KeyManager_new P masterKey interval w = (Throw invalid_master_key, w).
Proof. apply KeyManager_new_guard. Qed.

(** A manager that was constructed holds the key of version 1 and nothing
    in the previous slot, and was last rotated at the time of its
    construction. *)
Lemma constructor_initial_state P masterKey interval w this w' :
  KeyManager_new P masterKey interval w = (Return this, w') ->
  currentVersion this = 1 /\
  previousVersion this = None /\
  previousKey this = None /\
  lastRotationTime this = Some (clock w) /\
  exists key derived,
    currentKey this = Some key /\
    heap w' !! key = Some (ArrayBuffer derived) /\
    hkdfSync P "sha256" (deref w' (masterKeyBuffer this)) (fresh_bytes 32 w)
      (key_info P 1) 32 = Return derived.
Proof.
  intros Hnew. destruct masterKey as [s|]; [|discriminate].
  destruct (decide (String.length s = 64%nat)) as [Hlen|Hlen].
  - rewrite KeyManager_new_eq in Hnew by done.
    destruct (hkdfSync P _ _ _ _ _) as [derived|] eqn:Hd; [|discriminate].
    injection Hnew as <- <-. cbn. repeat split.
    exists (S (length (heap w))), derived. split; [reflexivity|].
    split.
    + replace (S (length (heap w)))
        with (length (heap w ++ [Buffer (hex_decode s)])%list)
        by (rewrite length_app; cbn; lia).
      change [Buffer (hex_decode s); ArrayBuffer derived]
        with ([Buffer (hex_decode s)] ++ [ArrayBuffer derived])%list.
      rewrite app_assoc. apply lookup_snoc.
    + unfold deref; cbn.
      change [Buffer (hex_decode s); ArrayBuffer derived]
        with ([Buffer (hex_decode s)] ++ [ArrayBuffer derived])%list.
      rewrite app_assoc, lookup_app_l, lookup_snoc; [exact Hd|].
      rewrite length_app; cbn; lia.
  - rewrite KeyManager_new_guard in Hnew by eauto. discriminate.
Qed.

(** The guard never looks at the characters: whatever has 64 of them gets
    past it, and the constructor then completes as the derivation does. *)
Lemma constructor_checks_length_only P s interval w :
  String.length s = 64%nat ->
  (exists this w', KeyManager_new P (Some s) interval w = (Return this, w') /\
     deref w' (masterKeyBuffer this) = hex_decode s) \/
  (exists e w',
     KeyManager_new P (Some s) interval w = (Throw e, w') /\
     hkdfSync P "sha256" (hex_decode s) (fresh_bytes 32 w) (key_info P 1) 32
       = Throw e).
Proof.
  intros Hlen. rewrite KeyManager_new_eq by done.
  destruct (hkdfSync P _ _ _ _ _) as [derived|e] eqn:Hd.
  - left. do 2 eexists. split; [reflexivity|].
    unfold deref; cbn.
    change [Buffer (hex_decode s); ArrayBuffer derived]
      with ([Buffer (hex_decode s)] ++ [ArrayBuffer derived])%list.
    rewrite app_assoc, lookup_app_l, lookup_snoc; [reflexivity|].
    rewrite length_app; cbn; lia.
  - right. by do 2 eexists.
Qed.

(** C9, where the code departs from it: a secret of 64 characters that
    are not all hexadecimal digits is accepted, and the manager works from
    a root secret of 31 octets. *)
Theorem constructor_accepts_short_secret :
  String.length Demo.not_hex = 64%nat /\
  is_hex Demo.not_hex = false /\
  exists this w',
    KeyManager_new Demo.platform (Some Demo.not_hex) None Demo.world =
      (Return this, w') /\
    length (deref w' (masterKeyBuffer this)) = 31%nat /\
    currentVersion this = 1.
Proof.
  split; [reflexivity|]. split; [reflexivity|].
  do 2 eexists. split; [vm_compute; reflexivity|].
  split; reflexivity.
Qed.

(* ================================================================== *)
(** * Shutdown *)
(* ================================================================== *)

(** [destroy] changes no [ArrayBuffer]. *)
Lemma fill_if_buffer_skips_array_buffers x s r d :
  heap (snd s) !! r = Some (ArrayBuffer d) ->
  heap (snd (snd (fill_if_buffer x s))) !! r = Some (ArrayBuffer d).
Proof.
  intros Hr. destruct s as [this w]. cbn in Hr.
  destruct x as [r'|]; cbn; [|exact Hr].
  unfold bind, in_world, isBuffer, fill0; cbn.
  destruct (heap w !! r') as [o|] eqn:Ho; cbn; [|exact Hr].
  destruct o; cbn; [exact Hr|].
  destruct (decide (r' = r)) as [->|Hne]; [congruence|].
  by rewrite list_lookup_alter_ne.
Qed.

Lemma fill_if_buffer_this x s : fst (snd (fill_if_buffer x s)) = fst s.
Proof.
  destruct s as [this w]. destruct x as [r'|]; cbn; [|reflexivity].
  unfold bind, in_world, isBuffer, fill0; cbn.
  by destruct (match heap w !! r' with Some o => is_Buffer o | None => false end).
Qed.

Lemma fill_if_buffer_timers x s :
  timers (snd (snd (fill_if_buffer x s))) = timers (snd s).
Proof.
  destruct s as [this w]. destruct x as [r'|]; cbn; [|reflexivity].
  unfold bind, in_world, isBuffer, fill0; cbn.
  by destruct (match heap w !! r' with Some o => is_Buffer o | None => false end).
Qed.


Lemma fill_if_buffer_returns x s : fst (fill_if_buffer x s) = Return tt.
Proof.
  destruct s as [this w]. destruct x as [r'|]; cbn; [|reflexivity].
  unfold bind, in_world, isBuffer, fill0; cbn.
  by destruct (match heap w !! r' with Some o => is_Buffer o | None => false end).
Qed.

Lemma destroy_eq s :
  destroy s =
  let s1 := timer_cleared s in
  let s2 := snd (fill_if_buffer (currentKey (fst s1)) s1) in
  let s3 := snd (fill_if_buffer (previousKey (fst s2)) s2) in
  fill_if_buffer (Some (masterKeyBuffer (fst s3))) s3.
Proof.
  destruct s as [this w].
  unfold destroy, timer_cleared, fill_if_buffer, bind, self, update, in_world,
    isBuffer, fill0, clearInterval, ret; cbn.
  destruct (rotationTimer this); cbn;
    destruct (currentKey this); cbn;
    repeat (case_match; cbn in *; simplify_eq; try reflexivity).
Qed.

Lemma timer_cleared_heap s : heap (snd (timer_cleared s)) = heap (snd s).
Proof. unfold timer_cleared. by destruct (rotationTimer (fst s)). Qed.

(** [destroy] leaves every [ArrayBuffer] as it is. *)
Lemma destroy_skips_array_buffers s r d :
  heap (snd s) !! r = Some (ArrayBuffer d) ->
  heap (snd (snd (destroy s))) !! r = Some (ArrayBuffer d).
Proof.
  intros Hr. rewrite destroy_eq. cbn zeta.
  do 3 apply fill_if_buffer_skips_array_buffers.
  by rewrite timer_cleared_heap.
Qed.

(** [destroy] cancels the timer. *)
Lemma destroy_cancels_timer s :
  rotationTimer (fst (snd (destroy s))) = None /\
  forall t, rotationTimer (fst s) = Some t -> t ∉ timers (snd (snd (destroy s))).
Proof.
  rewrite destroy_eq. cbn zeta.
  rewrite !fill_if_buffer_this, !fill_if_buffer_timers.
  destruct s as [this w]. unfold timer_cleared; cbn.
  destruct (rotationTimer this) as [t|] eqn:Ht; cbn.
  - split; [reflexivity|]. intros t' [= <-].
    rewrite list_elem_of_filter. by intros [? _].
  - by split.
Qed.

Lemma derived_key_grows P w w' r tail :
  heap w' = (heap w ++ tail)%list -> derived_key P w r -> derived_key P w' r.
Proof.
  intros Hh (d & ikm & salt & info & Hr & Hd).
  exists d, ikm, salt, info. split; [|exact Hd].
  rewrite Hh. by apply lookup_app_l_Some.
Qed.

Lemma km_reachable_heap P n s : km_reachable P n s -> heap_invariant P s.
Proof.
  induction 1 as [mk interval w this w' Hnew | n s _ IH | n this w w' _ IH Ha].
  - destruct mk as [s|]; [|discriminate].
    destruct (decide (String.length s = 64%nat)) as [Hlen|Hlen].
    + rewrite KeyManager_new_eq in Hnew by done.
      destruct (hkdfSync P _ _ _ _ _) as [derived|] eqn:Hd; [|discriminate].
      injection Hnew as <- <-.
      assert (forall tail,
                (heap w ++ Buffer (hex_decode s) :: tail)%list !! length (heap w)
                = Some (Buffer (hex_decode s))) as Hm
        by (intros; by apply list_lookup_middle).
      split; cbn.
      * eexists. apply Hm.
      * intros r [= <-]. do 4 eexists. split; [|exact Hd].
        change [Buffer (hex_decode s); ArrayBuffer derived]
          with ([Buffer (hex_decode s)] ++ [ArrayBuffer derived])%list.
        rewrite app_assoc.
        replace (S (length (heap w)))
          with (length (heap w ++ [Buffer (hex_decode s)])%list)
          by (rewrite length_app; cbn; lia).
        apply lookup_snoc.
      * discriminate.
    + rewrite KeyManager_new_guard in Hnew by eauto. discriminate.
  - destruct s as [this w]. destruct IH as [[secret Hm] Hc Hp].
    rewrite rotateKey_eq. cbn [fst snd] in Hm, Hc, Hp.
    destruct (hkdfSync P _ _ _ _ _) as [derived|] eqn:Hd; cbn.
    + split; cbn.
      * exists secret. by apply lookup_app_l_Some.
      * intros r [= <-]. do 4 eexists. split; [apply lookup_snoc|exact Hd].
      * intros r Hr. eapply derived_key_grows; [|by apply Hc]. reflexivity.
    + split; cbn.
      * by exists secret.
      * intros r Hr. destruct (Hc r Hr) as (d & ? & ? & ? & ? & ?).
        by exists d; eauto.
      * intros r Hr. destruct (Hc r Hr) as (d & ? & ? & ? & ? & ?).
        by exists d; eauto.
  - destruct Ha. destruct IH as [Hm Hc Hp]. by split.
Qed.

(** [destroy] zeroes a master key that is a [Buffer]. *)
Lemma destroy_zeroes_master s secret :
  heap (snd s) !! masterKeyBuffer (fst s) = Some (Buffer secret) ->
  heap (snd (snd (destroy s))) !! masterKeyBuffer (fst (snd (destroy s))) =
  Some (Buffer (zero_fill secret)).
Proof.
  intros Hm. rewrite destroy_eq. cbn zeta.
  set (s1 := timer_cleared s).
  set (s2 := snd (fill_if_buffer (currentKey (fst s1)) s1)).
  set (s3 := snd (fill_if_buffer (previousKey (fst s2)) s2)).
  assert (fst s3 = fst s1) as H31
    by (unfold s3, s2; by rewrite !fill_if_buffer_this).
  assert (masterKeyBuffer (fst s1) = masterKeyBuffer (fst s)) as H1.
  { unfold s1, timer_cleared. by destruct (rotationTimer (fst s)). }
  rewrite fill_if_buffer_this, H31, H1.
  assert (forall x s0 r d,
            heap (snd s0) !! r = Some (Buffer d) ->
            heap (snd (snd (fill_if_buffer x s0))) !! r = Some (Buffer d) \/
            heap (snd (snd (fill_if_buffer x s0))) !! r
              = Some (Buffer (zero_fill d))) as Hstep.
  { intros x [this0 w0] r d Hr. cbn in Hr.
    destruct x as [r'|]; cbn; [|by left].
    unfold bind, in_world, isBuffer, fill0; cbn.
    destruct (heap w0 !! r') as [o|] eqn:Ho; cbn; [|by left].
    destruct o; cbn; [by left|].
    destruct (decide (r' = r)) as [->|Hne].
    - right. rewrite list_lookup_alter_eq, Hr. reflexivity.
    - left. by rewrite list_lookup_alter_ne. }
  assert (zero_fill (zero_fill secret) = zero_fill secret) as Hidem.
  { unfold zero_fill. rewrite map_map. reflexivity. }
  assert (heap (snd s1) !! masterKeyBuffer (fst s) = Some (Buffer secret))
    as Hm1 by (unfold s1; by rewrite timer_cleared_heap).
  assert (exists d, heap (snd s3) !! masterKeyBuffer (fst s) = Some (Buffer d)
                    /\ zero_fill d = zero_fill secret) as (d & Hm3 & Hd).
  { destruct (Hstep (currentKey (fst s1)) s1 _ _ Hm1) as [H2|H2];
      destruct (Hstep (previousKey (fst s2)) s2 _ _ H2) as [H3|H3];
      eexists; (split; [exact H3|]); by rewrite ?Hidem. }
  destruct s3 as [this3 w3]. cbn in *.
  unfold bind, in_world, isBuffer, fill0; cbn. rewrite Hm3. cbn.
  rewrite list_lookup_alter_eq, Hm3. cbn. by rewrite Hd.
Qed.

(** What [destroy] does to a reachable key manager: the master key is
    zeroed and the timer cancelled, but the derived keys, which are
    [ArrayBuffer]s, keep their octets. *)
Lemma destroy_reachable P n s :
  km_reachable P n s ->
  (exists secret,
     deref (snd s) (masterKeyBuffer (fst s)) = secret /\
     deref (snd (snd (destroy s))) (masterKeyBuffer (fst (snd (destroy s))))
       = zero_fill secret) /\
  rotationTimer (fst (snd (destroy s))) = None /\
  (forall r, currentKey (fst s) = Some r \/ previousKey (fst s) = Some r ->
     is_Some (heap (snd s) !! r) /\
     heap (snd (snd (destroy s))) !! r = heap (snd s) !! r).
Proof.
  intros Hreach. destruct (km_reachable_heap _ _ _ Hreach) as [[sec Hm] Hc Hp].
  split; [|split].
  - exists sec. unfold deref. rewrite Hm. split; [reflexivity|].
    by rewrite (destroy_zeroes_master _ _ Hm).
  - apply destroy_cancels_timer.
  - intros r [Hr|Hr]; [apply Hc in Hr | apply Hp in Hr];
      destruct Hr as (d & _ & _ & _ & Hr & _);
      rewrite (destroy_skips_array_buffers _ _ _ Hr), Hr; by eauto.
Qed.

(** C8, where the code departs from it: after [destroy] the master key is
    zero and the timer is cancelled, but the current and the previous key
    are still in memory with the octets they had. *)
Theorem destroy_leaves_derived_keys :
  let before := Demo.rotated_once in
  let after := snd (destroy before) in
  currentKey (fst after) = Some 2%nat /\
  previousKey (fst after) = Some 1%nat /\
  deref (snd after) 2 = deref (snd before) 2 /\
  deref (snd after) 1 = deref (snd before) 1 /\
  all_zero (deref (snd after) 2) = false /\
  all_zero (deref (snd after) 1) = false /\
  all_zero (deref (snd after) (masterKeyBuffer (fst after))) = true /\
  timers (snd after) = [] /\
  rotationTimer (fst after) = None.
Proof. vm_compute. repeat split. Qed.

(* ================================================================== *)
(** * The store is out of reach of a rotation *)
(* ================================================================== *)

Lemma zoom_keyManager_dataStore {A} (m : M (KeyManager * World) A) s :
  dataStore (fst (snd (zoom keyManager set_keyManager m s))) = dataStore (fst s)
  /\ encryptionService (fst (snd (zoom keyManager set_keyManager m s)))
     = encryptionService (fst s).
Proof.
  unfold zoom. destruct (m (keyManager (fst s), snd s)) as [c [u w]]. by cbn.
Qed.

(** C10.  A rotation, forced or fired by the timer, leaves the data store
    as it was: the same ids, and under every id the same record with the
    same ciphertext, iv, tag, key version, timestamp and metadata. *)
Theorem rotation_preserves_store P s :
  dataStore (fst (snd (Vault_forceRotation P s))) = dataStore (fst s) /\
  dataStore (fst (after_call (@TimerFires P) s)) = dataStore (fst s) /\
  getAllIds (dataStore (fst (snd (Vault_forceRotation P s))))
    = getAllIds (dataStore (fst s)) /\
  (forall id,
     DataStore_retrieve (dataStore (fst (snd (Vault_forceRotation P s)))) id
     = DataStore_retrieve (dataStore (fst s)) id) /\
  encryptionService (fst (snd (Vault_forceRotation P s)))
    = encryptionService (fst s).
Proof.
  unfold Vault_forceRotation, forceRotation, after_call.
  destruct (zoom_keyManager_dataStore (rotateKey P) s) as [Hd He].
  rewrite Hd, He. repeat split.
Qed.

(* ================================================================== *)
(** * Store and retrieve *)
(* ================================================================== *)

(** [retrieve] changes nothing. *)
Lemma retrieve_state P id s : snd (retrieve P id s) = s.
Proof.
  destruct s as [v w].
  unfold retrieve, try_catch, bind, self, lift, throw, ret, in_world, decrypt,
    try_catch, bind, read, lift, throw; cbn.
  repeat (case_match; cbn in *; simplify_eq; try reflexivity).
Qed.

Lemma store_eq P data v w :
  store P data (v, w) =
  let svc := encryptionService v in
  let km := keyManager v in
  let w1 := drew (ivLength svc) w in
  let iv := fresh_bytes (ivLength svc) w in
  match JSON_stringify P data, currentKey km with
  | Some text, Some key =>
      match cipher P (algorithm svc) (deref w key) iv (utf8_encode P text) with
      | Return out =>
          let e := mkEncryptedData (fst out) iv (snd out) in
          let id := uuid_of_bytes (fresh_bytes 16 w1) in
          (Return (mkStoreResult id (currentVersion km) (clock w)),
           (set_dataStore
              (mkDataStore
                 (<[id := filed (currentVersion km) e id (clock w)]>
                    (storage (dataStore v)))) v,
            drew 16 w1))
      | Throw _ => (Throw (Error "Failed to store data"), (v, w1))
      end
  | _, _ => (Throw (Error "Failed to store data"), (v, w1))
  end.
Proof.
  unfold store, try_catch at 1, bind at 1, self at 1. cbn [fst snd].
  unfold getCurrentKey.
  unfold bind at 1, in_world at 1, encrypt, try_catch, bind at 1,
    randomBytes at 1. cbn [fst snd].
  destruct (JSON_stringify P data) as [text|]; cbn; [|reflexivity].
  destruct (currentKey (keyManager v)) as [key|]; cbn; [|reflexivity].
  unfold bind, read, lift, ret; cbn.
  fold (deref w key). fold (fresh_bytes (ivLength (encryptionService v)) w).
  destruct (cipher P _ _ _ _) as [[ct tag]|e]; cbn; reflexivity.
Qed.

(** Whatever [store] does, the key manager stays as it is, and so does
    everything of the world that is the program's own. *)
Lemma store_frame P data s :
  keyManager (fst (snd (store P data s))) = keyManager (fst s) /\
  encryptionService (fst (snd (store P data s))) = encryptionService (fst s) /\
  ambient (snd s) (snd (snd (store P data s))).
Proof.
  destruct s as [v w]. rewrite store_eq. cbn zeta.
  assert (forall n w0, ambient w0 (drew n w0)) as Hdrew
    by (intros; apply ambient_intro).
  destruct (JSON_stringify P data); cbn; [|by auto].
  destruct (currentKey (keyManager v)); cbn; [|by auto].
  destruct (cipher P _ _ _ _); cbn; [|by auto].
  repeat split. apply (ambient_intro w).
Qed.

(** A successful [store] reports the current version and files a record
    of that version under the id it returns. *)
Lemma store_files P data s r s1 :
  store P data s = (Return r, s1) ->
  res_keyVersion r = currentVersion (keyManager (fst s)) /\
  exists record,
    DataStore_retrieve (dataStore (fst s1)) (res_id r) = Some record /\
    rec_keyVersion record = res_keyVersion r.
Proof.
  destruct s as [v w]. rewrite store_eq. cbn zeta.
  destruct (JSON_stringify P data); cbn; [|discriminate].
  destruct (currentKey (keyManager v)); cbn; [|discriminate].
  destruct (cipher P _ _ _ _); cbn; [|discriminate].
  intros [= <- <-]. cbn. split; [reflexivity|].
  eexists. unfold DataStore_retrieve; cbn.
  rewrite lookup_insert_eq. split; reflexivity.
Qed.

(** ** Histories of a vault and the key manager inside it *)

Lemma zoom_rotateKey P v w :
  snd (zoom keyManager set_keyManager (rotateKey P) (v, w)) =
  (set_keyManager (fst (snd (rotateKey P (keyManager v, w)))) v,
   snd (snd (rotateKey P (keyManager v, w)))).
Proof.
  unfold zoom; cbn [fst snd].
  by destruct (rotateKey P (keyManager v, w)) as [c [u w']].
Qed.

Lemma history_km_reachable P n s s' m :
  history P n s s' ->
  km_reachable P m (keyManager (fst s), snd s) ->
  km_reachable P (m + n) (keyManager (fst s'), snd s').
Proof.
  intros Hh Hs.
  induction Hh as [s | n s s' c _ IH | n s v w w' _ IH Ha]; cbn.
  - by rewrite Nat.add_0_r.
  - specialize (IH Hs). destruct s' as [v' w'].
    destruct c as [data | id | |]; cbn.
    + rewrite Nat.add_0_r.
      destruct (store_frame P data (v', w')) as (-> & _ & Ha).
      by eapply km_ambient.
    + by rewrite retrieve_state, Nat.add_0_r.
    + unfold Vault_forceRotation, forceRotation. rewrite zoom_rotateKey. cbn.
      replace (m + (n + 1))%nat with (S (m + n)) by lia.
      rewrite <- surjective_pairing. by apply (km_rotate P _ _ IH).
    + rewrite zoom_rotateKey. cbn.
      replace (m + (n + 1))%nat with (S (m + n)) by lia.
      rewrite <- surjective_pairing. by apply (km_rotate P _ _ IH).
  - specialize (IH Hs). by eapply km_ambient.
Qed.

Lemma VaultService_new_km P masterKey interval w v w' :
  VaultService_new P masterKey interval w = (Return v, w') ->
  KeyManager_new P masterKey interval w = (Return (keyManager v), w') /\
  dataStore v = DataStore_new /\
  encryptionService v = EncryptionService_new.
Proof.
  unfold VaultService_new, bind, ret.
  destruct (KeyManager_new P masterKey interval w) as [[km|e] w1];
    [|discriminate].
  by intros [= <- <-].
Qed.

Lemma vault_reachable_km P s :
  vault_reachable P s ->
  exists n, km_reachable P n (keyManager (fst s), snd s).
Proof.
  intros (mk & interval & w & v0 & w0 & n & Hnew & Hh).
  exists (0 + n)%nat. apply (history_km_reachable _ _ _ _ _ Hh). cbn.
  apply VaultService_new_km in Hnew as (Hnew & _). by eapply km_new.
Qed.

(** The cipher service of a vault is the one its constructor made. *)
Lemma history_encryptionService P n s s' :
  history P n s s' ->
  encryptionService (fst s') = encryptionService (fst s).
Proof.
  induction 1 as [s | n s s' c _ IH | n s v w w' _ IH _]; [done| |done].
  rewrite <- IH. destruct c as [data | id | |]; cbn.
  - apply store_frame.
  - by rewrite retrieve_state.
  - apply zoom_keyManager_dataStore.
  - apply zoom_keyManager_dataStore.
Qed.

(** ** A record whose key version has aged out *)

Lemma retrieve_expired P v w id record :
  DataStore_retrieve (dataStore v) id = Some record ->
  isVersionSupported (keyManager v) (rec_keyVersion record) = false ->
  is_Some (lastRotationTime (keyManager v)) ->
  retrieve P id (v, w) =
  (Throw (Error (expired_message (rec_keyVersion record)
                   (currentVersion (keyManager v))
                   (previousVersion (keyManager v)))),
   (v, w)).
Proof.
  intros Hrec Hsup [t Ht].
  unfold retrieve, try_catch, bind at 1, self at 1. cbn [fst snd].
  rewrite Hrec, Hsup. cbn.
  unfold bind, lift, getKeyInfo, throw. rewrite Ht. reflexivity.
Qed.

Lemma string_app_assoc (a b c : string) : ((a ++ b) ++ c = a ++ (b ++ c))%string.
Proof.
  induction a as [|x a IH]; [reflexivity|].
  change (String x ((a ++ b) ++ c) = String x (a ++ b ++ c))%string.
  by rewrite IH.
Qed.

Lemma prefix_app (a b : string) : String.prefix a (a ++ b) = true.
Proof.
  induction a as [|x a IH]; [by destruct b|].
  change (String.prefix (String x a) (String x (a ++ b)) = true).
  cbn. destruct (ascii_dec x x); [exact IH|done].
Qed.

Lemma includes_unfold (needle h : string) :
  includes needle h =
  String.prefix needle h ||
  match h with EmptyString => false | String _ rest => includes needle rest end.
Proof. by destruct h. Qed.

Lemma includes_app (needle a b : string) :
  includes needle (a ++ needle ++ b) = true.
Proof.
  induction a as [|x a IH].
  - change (includes needle (needle ++ b) = true).
    by rewrite includes_unfold, prefix_app.
  - change (includes needle (String x (a ++ needle ++ b)) = true).
    rewrite includes_unfold, IH. apply orb_true_r.
Qed.

(** The message of an expired version is told apart from the other
    failures of [retrieve], and the HTTP layer answers it with 410. *)
Lemma expired_message_status keyVersion current previous :
  let m := expired_message keyVersion current previous in
  retrieve_status (Error m) = 410 /\
  m <> "Record not found" /\
  m <> "Decryption failed: Invalid key or tampered data" /\
  m <> "Decryption operation failed" /\
  m <> "Decryption key not available".
Proof.
  cbn zeta. unfold expired_message. split.
  - unfold retrieve_status. cbn [message].
    replace (String.eqb _ "Record not found") with false by reflexivity.
    replace ("Key version " ++ pretty keyVersion ++
             " is no longer supported. " ++ "Current: " ++ pretty current ++
             ", " ++ "Previous: " ++ show_version previous)%string
      with (("Key version " ++ pretty keyVersion ++ " is ") ++
            "no longer supported" ++
            (". " ++ "Current: " ++ pretty current ++ ", " ++ "Previous: " ++
             show_version previous))%string.
    + by rewrite includes_app.
    + rewrite !string_app_assoc. reflexivity.
  - repeat split; discriminate.
Qed.

Lemma demo_vault_reachable : vault_reachable Demo.platform Demo.vault.
Proof.
  exists (Some Demo.master_key), (Some 5000), Demo.world,
    (fst Demo.vault), (snd Demo.vault), 0%nat.
  split; [vm_compute; reflexivity|].
  rewrite <- surjective_pairing. apply history_nil.
Qed.

Lemma demo_stored :
  store Demo.platform Demo.payload Demo.vault =
  (Return Demo.receipt, snd Demo.stored).
Proof. vm_compute. reflexivity. Qed.

Lemma demo_aged : history Demo.platform 2 (snd Demo.stored) Demo.aged.
Proof.
  apply (history_call Demo.platform 1 _ _ CallForceRotation).
  apply (history_call Demo.platform 0 _ _ CallForceRotation).
  apply history_nil.
Qed.

(** C5.  A record stored under version [V] by a vault, looked up after
    exactly two rotations: [retrieve] throws the error whose message names
    [V] as no longer supported, [V + 2] as current and [V + 1] as previous.
    The message differs from those of a missing record and of a failed
    authentication, and the HTTP layer answers it with 410 and not with 404
    or 500. *)
Theorem two_rotation_expiry P s data r s1 s3 :
  vault_reachable P s ->
  store P data s = (Return r, s1) ->
  history P 2 s1 s3 ->
  DataStore_retrieve (dataStore (fst s3)) (res_id r) =
    DataStore_retrieve (dataStore (fst s1)) (res_id r) ->
  let V := res_keyVersion r in
  let m := expired_message V (V + 2) (Some (V + 1)) in
  retrieve P (res_id r) s3 = (Throw (Error m), s3) /\
  retrieve_status (Error m) = 410 /\
  m <> "Record not found" /\
  m <> "Decryption failed: Invalid key or tampered data".
Proof.
  intros Hreach Hstore Hhist Hsame V m.
  destruct (vault_reachable_km _ _ Hreach) as [n0 Hkm].
  destruct (store_files _ _ _ _ _ Hstore) as (HV & record & Hrec & Hrv).
  pose proof (store_frame P data s) as (Hkm1 & _ & Ha).
  rewrite Hstore in Hkm1, Ha. cbn [fst snd] in Hkm1, Ha.
  assert (km_reachable P n0 (keyManager (fst s1), snd s1)) as Hkm'.
  { rewrite Hkm1. by eapply km_ambient. }
  pose proof (history_km_reachable _ _ _ _ _ Hhist Hkm') as Hkm3.
  destruct (km_reachable_invariant _ _ _ Hkm) as [Hv0 _ _ _ _].
  destruct (km_reachable_invariant _ _ _ Hkm3) as [Hv3 _ Hrot _ Hlater].
  destruct Hlater as [Hpv _]; [lia|]. cbn [fst snd] in *.
  assert (currentVersion (keyManager (fst s3)) = V + 2) as Hcur
    by (unfold V; lia).
  assert (previousVersion (keyManager (fst s3)) = Some (V + 1)) as Hprev
    by (rewrite Hpv; f_equal; unfold V; lia).
  split; [|destruct (expired_message_status V (V + 2) (Some (V + 1)))
             as (? & ? & ? & _); by repeat split].
  destruct s3 as [v3 w3]. cbn [fst snd] in *.
  rewrite <- Hsame in Hrec.
  rewrite (retrieve_expired P v3 w3 _ record Hrec); [| |exact Hrot].
  - unfold m. by rewrite Hrv, Hcur, Hprev.
  - unfold isVersionSupported. rewrite Hrv, Hcur, Hprev.
    fold V. apply orb_false_intro.
    + apply Z.eqb_neq. lia.
    + apply andb_false_intro1, bool_decide_eq_false_2.
      intros [= ?]. lia.
Qed.

Lemma two_rotation_expiry_witness :
  retrieve Demo.platform (res_id Demo.receipt) Demo.aged =
  (Throw (Error "Key version 1 is no longer supported. Current: 3, Previous: 2"),
   Demo.aged).
Proof.
  exact (proj1 (two_rotation_expiry Demo.platform Demo.vault Demo.payload
                  Demo.receipt (snd Demo.stored) Demo.aged
                  demo_vault_reachable demo_stored demo_aged eq_refl)).
Defined.

(* ================================================================== *)
(** * Base64 text decodes to the octets it encodes *)
(* ================================================================== *)

Ltac div_lia := zify; Z.to_euclidean_division_equations; lia.

Lemma list_ind3 {A} (Pr : list A -> Prop) :
  Pr [] -> (forall a, Pr [a]) -> (forall a b, Pr [a; b]) ->
  (forall a b c l, Pr l -> Pr (a :: b :: c :: l)) ->
  forall l, Pr l.
Proof.
  intros H0 H1 H2 H3 l.
  enough (Pr l /\ (forall a, Pr (a :: l)) /\ (forall a b, Pr (a :: b :: l)))
    by tauto.
  induction l as [|x l (IH0 & IH1 & IH2)]; [by auto|].
  split; [apply IH1|]. split; [intros; apply IH2|].
  intros a b. by apply H3.
Qed.

Lemma byte_of_to_N (b : byte) : byte_of_N (Byte.to_N b) = b.
Proof.
  unfold byte_of_N. pose proof (Byte.to_N_bounded b).
  rewrite N.mod_small by lia. by rewrite Byte.of_to_N.
Qed.

Lemma b64_char_value (n : N) :
  (n < 64)%N ->
  b64_value (b64_char n) = Some n /\ Ascii.eqb (b64_char n) "=" = false.
Proof.
  intros Hn.
  set (ok := fun n => bool_decide (b64_value (b64_char n) = Some n)
                      && negb (Ascii.eqb (b64_char n) "=")).
  assert (forallb ok (map N.of_nat (seq 0 64)) = true) as Hall
    by (vm_compute; reflexivity).
  rewrite forallb_forall in Hall.
  specialize (Hall n). unfold ok in Hall.
  assert (In n (map N.of_nat (seq 0 64))) as Hin.
  { rewrite <- (N2Nat.id n). apply in_map, in_seq. lia. }
  apply Hall, andb_true_iff in Hin as [H1 H2].
  apply bool_decide_eq_true_1 in H1. apply negb_true_iff in H2. by split.
Qed.

Lemma b64_sextets_cons (n : N) (s : string) :
  (n < 64)%N -> b64_sextets (String (b64_char n) s) = n :: b64_sextets s.
Proof.
  intros Hn. destruct (b64_char_value n Hn) as [Hv He].
  cbn. by rewrite He, Hv.
Qed.

Lemma b64_sextets_encode (bs : bytes) :
  b64_sextets (base64_encode bs) = sextets bs.
Proof.
  induction bs as [|a|a b|a b c rest IH] using list_ind3.
  - reflexivity.
  - pose proof (Byte.to_N_bounded a).
    cbn [base64_encode sextets].
    rewrite !b64_sextets_cons; [reflexivity|div_lia..].
  - pose proof (Byte.to_N_bounded a). pose proof (Byte.to_N_bounded b).
    cbn [base64_encode sextets].
    rewrite !b64_sextets_cons; [reflexivity|div_lia..].
  - pose proof (Byte.to_N_bounded a). pose proof (Byte.to_N_bounded b).
    pose proof (Byte.to_N_bounded c).
    cbn [base64_encode sextets].
    rewrite !b64_sextets_cons, IH; [reflexivity|div_lia..].
Qed.

Lemma byte_of_N_eq (a : byte) (n : N) : n = Byte.to_N a -> byte_of_N n = a.
Proof. intros ->. apply byte_of_to_N. Qed.

Lemma b64_octets_sextets (bs : bytes) : b64_octets (sextets bs) = bs.
Proof.
  induction bs as [|a|a b|a b c rest IH] using list_ind3.
  - reflexivity.
  - pose proof (Byte.to_N_bounded a).
    cbn [b64_octets sextets].
    f_equal. apply byte_of_N_eq. div_lia.
  - pose proof (Byte.to_N_bounded a). pose proof (Byte.to_N_bounded b).
    cbn [b64_octets sextets].
    f_equal; [apply byte_of_N_eq; div_lia|].
    f_equal. apply byte_of_N_eq. div_lia.
  - pose proof (Byte.to_N_bounded a). pose proof (Byte.to_N_bounded b).
    pose proof (Byte.to_N_bounded c).
    cbn [b64_octets sextets]. rewrite IH.
    f_equal; [apply byte_of_N_eq; div_lia|].
    f_equal; [apply byte_of_N_eq; div_lia|].
    f_equal. apply byte_of_N_eq. div_lia.
Qed.

Lemma base64_inverse (bs : bytes) : base64_decode (base64_encode bs) = bs.
Proof.
  unfold base64_decode. by rewrite b64_sextets_encode, b64_octets_sextets.
Qed.

(* ================================================================== *)
(** * Reading back what was stored *)
(* ================================================================== *)

(** [retrieve] of a record whose version is supported: the completion is
    decided by the decipher and by [JSON.parse]. *)
Lemma retrieve_supported P v w id record key :
  DataStore_retrieve (dataStore v) id = Some record ->
  isVersionSupported (keyManager v) (rec_keyVersion record) = true ->
  getKeyByVersion (keyManager v) (rec_keyVersion record) = Some key ->
  retrieve P id (v, w) =
  match decipher P (algorithm (encryptionService v)) (deref w key)
          (base64_decode (rec_iv record)) (base64_decode (rec_tag record))
          (base64_decode (rec_ciphertext record)) with
  | Return plaintext =>
      match JSON_parse P (utf8_decode P plaintext) with
      | Return value =>
          (Return {| data := value;
                     meta_keyVersion := rec_keyVersion record;
                     meta_encryptedAt := rec_timestamp record |},
           (v, w))
      | Throw e => (Throw (decrypt_error e), (v, w))
      end
  | Throw e => (Throw (decrypt_error e), (v, w))
  end.
Proof.
  intros Hrec Hsup Hkey.
  unfold retrieve, try_catch at 1, bind at 1, self at 1. cbn [fst snd].
  rewrite Hrec, Hsup. cbn [negb].
  unfold bind at 1, ret at 1. rewrite Hkey.
  unfold bind, in_world, decrypt, try_catch, bind, read, lift, throw, ret,
    deserialize, decrypt_error; cbn.
  fold (deref w key).
  destruct (decipher P _ _ _ _ _) as [pt|e]; cbn.
  - destruct (JSON_parse P _) as [value|e]; cbn; [reflexivity|].
    by destruct (includes auth_failure_text (message e)).
  - by destruct (includes auth_failure_text (message e)).
Qed.

(** When the decipher refuses the tag, [retrieve] throws the error that
    stands for a wrong key or tampered data. *)
Lemma retrieve_reports_authentication_failure P v w id record key :
  DataStore_retrieve (dataStore v) id = Some record ->
  isVersionSupported (keyManager v) (rec_keyVersion record) = true ->
  getKeyByVersion (keyManager v) (rec_keyVersion record) = Some key ->
  decipher P (algorithm (encryptionService v)) (deref w key)
    (base64_decode (rec_iv record)) (base64_decode (rec_tag record))
    (base64_decode (rec_ciphertext record)) = Throw (Error auth_failure_text) ->
  retrieve P id (v, w) =
  (Throw (Error "Decryption failed: Invalid key or tampered data"), (v, w)).
Proof.
  intros Hrec Hsup Hkey Hd.
  rewrite (retrieve_supported P v w id record key Hrec Hsup Hkey), Hd.
  reflexivity.
Qed.

Lemma fresh_bytes_length n w : length (fresh_bytes n w) = n.
Proof. unfold fresh_bytes. by rewrite length_map, length_seq. Qed.

(** In a reachable vault the current key is a derived key of 32 octets,
    and the cipher service is the one of the constructor. *)
Lemma vault_reachable_current_key P (HP : PlatformSpec P) s :
  vault_reachable P s ->
  encryptionService (fst s) = EncryptionService_new /\
  exists key,
    currentKey (keyManager (fst s)) = Some key /\
    length (deref (snd s) key) = 32%nat.
Proof.
  intros Hreach. split.
  - destruct Hreach as (mk & interval & w & v0 & w0 & n & Hnew & Hh).
    rewrite (history_encryptionService _ _ _ _ Hh). cbn.
    by apply VaultService_new_km in Hnew as (_ & _ & ->).
  - destruct (vault_reachable_km _ _ Hreach) as [n Hkm].
    destruct (km_reachable_invariant _ _ _ Hkm) as [_ [key Hkey] _ _ _].
    destruct (km_reachable_heap _ _ _ Hkm) as [_ Hc _].
    cbn [fst snd] in *.
    destruct (Hc key Hkey) as (d & ikm & salt & info & Hd & Hhk).
    exists key. split; [exact Hkey|].
    unfold deref. rewrite Hd. cbn. by apply hkdf_length in Hhk.
Qed.

(** What was stored in a reachable vault is what [retrieve] returns right
    after. *)
Lemma roundtrip_reachable P (HP : PlatformSpec P) s (value : JSValue P) :
  vault_reachable P s ->
  JSON_serializable P value ->
  exists r s1,
    store P value s = (Return r, s1) /\
    exists out,
      retrieve P (res_id r) s1 = (Return out, s1) /\
      data out = value /\
      meta_keyVersion out = res_keyVersion r.
Proof.
  intros Hreach (text & Htext & Hparse).
  destruct (vault_reachable_current_key P HP s Hreach)
    as (Hsvc & key & Hkey & Hlen).
  destruct s as [v w]. cbn [fst snd] in *.
  rewrite store_eq. cbn zeta. rewrite Htext, Hkey, Hsvc.
  change (ivLength EncryptionService_new) with 12%nat.
  change (algorithm EncryptionService_new) with "aes-256-gcm".
  destruct (gcm_accepts (deref w key) (fresh_bytes 12 w)
              (utf8_encode P text) Hlen (fresh_bytes_length _ _))
    as (ct & tag & Hseal).
  rewrite Hseal. cbn [fst snd].
  do 2 eexists. split; [reflexivity|]. cbn [res_id res_keyVersion].
  set (id := uuid_of_bytes (fresh_bytes 16 (drew 12 w))).
  set (record := filed (currentVersion (keyManager v))
                   (mkEncryptedData ct (fresh_bytes 12 w) tag) id (clock w)).
  erewrite (retrieve_supported P _ _ id record key).
  - cbn [encryptionService set_dataStore]. rewrite Hsvc.
    change (algorithm EncryptionService_new) with "aes-256-gcm".
    unfold record, filed; cbn [rec_iv rec_tag rec_ciphertext enc_iv enc_tag
                                 enc_ciphertext rec_keyVersion rec_timestamp].
    rewrite !base64_inverse.
    replace (deref (drew 16 (drew 12 w)) key) with (deref w key)
      by reflexivity.
    rewrite (gcm_inverse _ _ _ _ _ Hseal), utf8_inverse, Hparse.
    eexists. split; [reflexivity|]. split; reflexivity.
  - unfold DataStore_retrieve; cbn. apply lookup_insert_eq.
  - cbn. unfold isVersionSupported. by rewrite Z.eqb_refl.
  - cbn. unfold getKeyByVersion. by rewrite Z.eqb_refl.
Qed.

(** C1.  In a vault that has just been constructed, [store] of a value
    that survives JSON completes, and [retrieve] of the id it returned
    completes with that value as its [data]. *)
Theorem store_retrieve_roundtrip P (HP : PlatformSpec P) masterKey interval w
    v0 w0 (value : JSValue P) :
  VaultService_new P masterKey interval w = (Return v0, w0) ->
  JSON_serializable P value ->
  exists r s1,
    store P value (v0, w0) = (Return r, s1) /\
    exists out,
      fst (retrieve P (res_id r) s1) = Return out /\
      data out = value.
Proof.
  intros Hnew Hser.
  assert (vault_reachable P (v0, w0)) as Hreach.
  { exists masterKey, interval, w, v0, w0, 0%nat.
    split; [exact Hnew|apply history_nil]. }
  destruct (roundtrip_reachable P HP _ value Hreach Hser)
    as (r & s1 & Hstore & out & Hret & Hdata & _).
  exists r, s1. split; [exact Hstore|].
  exists out. by rewrite Hret.
Qed.

(* ================================================================== *)
(** * The small platform meets the specification *)
(* ================================================================== *)

Lemma xor_byte_cancel (a b : byte) : Demo.xor_byte (Demo.xor_byte a b) b = a.
Proof.
  unfold Demo.xor_byte.
  rewrite <- (Byte.of_bits_to_bits a) at 2.
  destruct (Byte.to_bits a) as (a0 & a1 & a2 & a3 & a4 & a5 & a6 & a7).
  destruct (Byte.to_bits b) as (b0 & b1 & b2 & b3 & b4 & b5 & b6 & b7).
  rewrite Byte.to_bits_of_bits.
  rewrite !xorb_assoc, !xorb_nilpotent, !xorb_false_r. reflexivity.
Qed.

Lemma xor_bytes_cancel (pt ks : bytes) :
  (length pt <= length ks)%nat ->
  Demo.xor_bytes (Demo.xor_bytes pt ks) ks = pt.
Proof.
  revert ks. induction pt as [|a pt IH]; intros [|k ks] Hlen; cbn in *;
    try reflexivity; try lia.
  rewrite xor_byte_cancel. f_equal. apply IH. lia.
Qed.

Lemma xor_bytes_length (pt ks : bytes) :
  length ks = length pt -> length (Demo.xor_bytes pt ks) = length pt.
Proof.
  revert ks. induction pt as [|a pt IH]; intros [|k ks] Hlen; cbn in *;
    try reflexivity; try lia.
  f_equal. apply IH. lia.
Qed.

Lemma stream_length seed n : length (Demo.stream seed n) = n.
Proof. unfold Demo.stream. by rewrite length_map, length_seq. Qed.

Lemma demo_platform_spec : PlatformSpec Demo.platform.
Proof.
  split.
  - intros d ikm salt info n k [= <-]. apply stream_length.
  - intros s. apply string_of_list_byte_of_string.
  - intros key iv pt Hk _. cbn. unfold Demo.seal. cbn.
    rewrite Hk. cbn. by do 2 eexists.
  - intros key iv pt ct tag. cbn. unfold Demo.seal, Demo.open. cbn.
    destruct (length key =? 32)%nat; cbn; [|discriminate].
    intros [= <- <-].
    rewrite bool_decide_eq_true_2 by reflexivity.
    rewrite xor_bytes_length by apply stream_length.
    rewrite xor_bytes_cancel; [reflexivity|].
    by rewrite stream_length.
Qed.

Lemma demo_vault_created :
  VaultService_new Demo.platform (Some Demo.master_key) (Some 5000) Demo.world
  = (Return (fst Demo.vault), snd Demo.vault).
Proof. vm_compute. reflexivity. Qed.

Lemma demo_payload_serializable :
  JSON_serializable Demo.platform Demo.payload.
Proof. exists Demo.payload. split; reflexivity. Qed.

Lemma store_retrieve_roundtrip_witness :
  exists r s1,
    store Demo.platform Demo.payload (fst Demo.vault, snd Demo.vault)
      = (Return r, s1) /\
    exists out,
      fst (retrieve Demo.platform (res_id r) s1) = Return out /\
      data out = Demo.payload.
Proof.
  exact (store_retrieve_roundtrip Demo.platform demo_platform_spec
           (Some Demo.master_key) (Some 5000) Demo.world
           (fst Demo.vault) (snd Demo.vault) Demo.payload
           demo_vault_created demo_payload_serializable).
Defined.

(* ================================================================== *)
(** * The cipher service *)
(* ================================================================== *)

(** X1.  [deserialize] undoes [serialize]: the three buffers of an
    encryption come back octet for octet from their base64 texts. *)
Theorem deserialize_serialize (e : EncryptedData) :
  deserialize (serialize e) = e.
Proof.
  destruct e as [ct iv tag]. unfold deserialize, serialize.
  cbn [ser_ciphertext ser_iv ser_tag enc_ciphertext enc_iv enc_tag].
  by rewrite !base64_inverse.
Qed.

Lemma encrypt_eq P this (value : JSValue P) key w :
  encrypt P this value key w =
  match JSON_stringify P value, key with
  | Some text, Some r =>
      match cipher P (algorithm this) (deref w r)
              (fresh_bytes (ivLength this) w) (utf8_encode P text) with
      | Return out =>
          (Return (mkEncryptedData (fst out) (fresh_bytes (ivLength this) w)
                     (snd out)),
           drew (ivLength this) w)
      | Throw _ =>
          (Throw (Error "Encryption operation failed"), drew (ivLength this) w)
      end
  | _, _ =>
      (Throw (Error "Encryption operation failed"), drew (ivLength this) w)
  end.
Proof.
  unfold encrypt, try_catch, bind at 1, randomBytes at 1. cbn [fst snd].
  destruct (JSON_stringify P value) as [text|]; cbn; [|reflexivity].
  destruct key as [r|]; cbn; [|reflexivity].
  unfold bind, read, lift, ret; cbn.
  fold (deref w r). fold (fresh_bytes (ivLength this) w).
  destruct (cipher P _ _ _ _) as [[ct tag]|e]; reflexivity.
Qed.

Lemma decrypt_eq P this ciphertext iv tag key w :
  decrypt P this ciphertext iv tag key w =
  match decipher P (algorithm this) (deref w key) iv tag ciphertext with
  | Return plaintext =>
      match JSON_parse P (utf8_decode P plaintext) with
      | Return value => (Return value, w)
      | Throw e => (Throw (decrypt_error e), w)
      end
  | Throw e => (Throw (decrypt_error e), w)
  end.
Proof.
  unfold decrypt, try_catch, bind, read, lift, throw, decrypt_error; cbn.
  fold (deref w key).
  destruct (decipher P _ _ _ _ _) as [pt|e]; cbn.
  - destruct (JSON_parse P _) as [value|e]; cbn; [reflexivity|].
    by destruct (includes auth_failure_text (message e)).
  - by destruct (includes auth_failure_text (message e)).
Qed.

(** X2.  Whatever goes wrong inside [encrypt] — [JSON.stringify] gives no
    text, there is no key, the cipher throws — the caller sees the one
    error "Encryption operation failed", never the error of the platform;
    the random octets of the iv have been drawn all the same, and no
    binary object has changed. *)
Theorem encrypt_failure P this (value : JSValue P) key w e w' :
  encrypt P this value key w = (Throw e, w') ->
  e = Error "Encryption operation failed" /\
  w' = drew (ivLength this) w /\
  heap w' = heap w.
Proof.
  rewrite encrypt_eq.
  destruct (JSON_stringify P value); [|by intros [= <- <-]].
  destruct key; [|by intros [= <- <-]].
  destruct (cipher P _ _ _ _); [discriminate|by intros [= <- <-]].
Qed.

Lemma encrypt_failure_witness :
  Error "Encryption operation failed" = Error "Encryption operation failed" /\
  drew 12 Demo.world = drew (ivLength EncryptionService_new) Demo.world /\
  heap (drew 12 Demo.world) = heap Demo.world.
Proof.
  apply (encrypt_failure Demo.platform EncryptionService_new Demo.payload None
           Demo.world).
  vm_compute. reflexivity.
Defined.

(** X3.  [decrypt] returns a value only when the decipher has accepted the
    tag, and the value is then the JSON reading of exactly the octets the
    decipher released; the world is left as it was. *)
Theorem decrypt_returns_authenticated P this ciphertext iv tag key w
    (value : JSValue P) w' :
  decrypt P this ciphertext iv tag key w = (Return value, w') ->
  w' = w /\
  exists plaintext,
    decipher P (algorithm this) (deref w key) iv tag ciphertext
      = Return plaintext /\
    JSON_parse P (utf8_decode P plaintext) = Return value.
Proof.
  rewrite decrypt_eq.
  destruct (decipher P _ _ _ _ _) as [pt|e] eqn:Hd; [|discriminate].
  destruct (JSON_parse P _) as [v|e] eqn:Hp; [|discriminate].
  intros [= <- <-]. split; [reflexivity|]. by exists pt.
Qed.

(** X4.  When [decrypt] throws, the error is one of two fixed ones:
    "Decryption failed: Invalid key or tampered data" exactly when the
    message of the underlying exception contains the authentication text
    of the platform, and "Decryption operation failed" otherwise.  Nothing
    of the underlying message gets out, and the world is left as it
    was. *)
Theorem decrypt_failure P this ciphertext iv tag key w e w' :
  decrypt P this ciphertext iv tag key w = (Throw e, w') ->
  w' = w /\
  exists cause,
    (decipher P (algorithm this) (deref w key) iv tag ciphertext = Throw cause
     \/ exists plaintext,
          decipher P (algorithm this) (deref w key) iv tag ciphertext
            = Return plaintext /\
          JSON_parse P (utf8_decode P plaintext) = Throw cause) /\
    e = (if includes auth_failure_text (message cause)
         then Error "Decryption failed: Invalid key or tampered data"
         else Error "Decryption operation failed").
Proof.
  rewrite decrypt_eq.
  destruct (decipher P _ _ _ _ _) as [pt|cause] eqn:Hd.
  - destruct (JSON_parse P _) as [v|cause] eqn:Hp; [discriminate|].
    intros [= <- <-]. split; [reflexivity|].
    exists cause. split; [right; by exists pt|reflexivity].
  - intros [= <- <-]. split; [reflexivity|].
    exists cause. split; [by left|reflexivity].
Qed.

Lemma decrypt_returns_authenticated_witness :
  snd Demo.vault = snd Demo.vault /\
  exists plaintext,
    decipher Demo.platform (algorithm EncryptionService_new)
      (deref (snd Demo.vault) Scenario.key) (enc_iv Scenario.sealed)
      (enc_tag Scenario.sealed) (enc_ciphertext Scenario.sealed)
      = Return plaintext /\
    JSON_parse Demo.platform (utf8_decode Demo.platform plaintext)
      = Return Demo.payload.
Proof.
  apply (decrypt_returns_authenticated Demo.platform EncryptionService_new
           (enc_ciphertext Scenario.sealed) (enc_iv Scenario.sealed)
           (enc_tag Scenario.sealed) Scenario.key (snd Demo.vault)).
  vm_compute. reflexivity.
Defined.

Lemma decrypt_failure_witness :
  snd Demo.vault = snd Demo.vault /\
  exists cause,
    (decipher Demo.platform (algorithm EncryptionService_new)
       (deref (snd Demo.vault) Scenario.key) (enc_iv Scenario.sealed) []
       (enc_ciphertext Scenario.sealed) = Throw cause
     \/ exists plaintext,
          decipher Demo.platform (algorithm EncryptionService_new)
            (deref (snd Demo.vault) Scenario.key) (enc_iv Scenario.sealed) []
            (enc_ciphertext Scenario.sealed) = Return plaintext /\
          JSON_parse Demo.platform (utf8_decode Demo.platform plaintext)
            = Throw cause) /\
    Error "Decryption failed: Invalid key or tampered data" =
    (if includes auth_failure_text (message cause)
     then Error "Decryption failed: Invalid key or tampered data"
     else Error "Decryption operation failed").
Proof.
  apply (decrypt_failure Demo.platform EncryptionService_new
           (enc_ciphertext Scenario.sealed) (enc_iv Scenario.sealed) []
           Scenario.key (snd Demo.vault)).
  vm_compute. reflexivity.
Defined.

(* ================================================================== *)
(** * The data store *)
(* ================================================================== *)

Lemma DataStore_store_eq e v meta this w :
  DataStore_store e v meta (this, w) =
  let id := uuid_of_bytes (fresh_bytes 16 w) in
  (Return id,
   (mkDataStore
      (<[id := {| rec_id := id;
                  rec_keyVersion := v;
                  rec_ciphertext := ser_ciphertext e;
                  rec_iv := ser_iv e;
                  rec_tag := ser_tag e;
                  rec_timestamp := clock w;
                  rec_metadata := default [] meta |}]> (storage this)),
    drew 16 w)).
Proof. reflexivity. Qed.

(** X5.  [store] of the data store files the record under the id it
    returns, so that [retrieve] of that id gives back the version, the three
    texts, the time of the call and the metadata (empty when none was
    given); every other id leads where it led before, and the ids are the
    former ones plus the new one. *)
Theorem DataStore_store_retrieve e v meta this w :
  exists id this' w',
    DataStore_store e v meta (this, w) = (Return id, (this', w')) /\
    DataStore_retrieve this' id =
      Some {| rec_id := id;
              rec_keyVersion := v;
              rec_ciphertext := ser_ciphertext e;
              rec_iv := ser_iv e;
              rec_tag := ser_tag e;
              rec_timestamp := clock w;
              rec_metadata := default [] meta |} /\
    (forall id', id' <> id ->
       DataStore_retrieve this' id' = DataStore_retrieve this id') /\
    getAllIds this' = {[id]} ∪ getAllIds this /\
    heap w' = heap w.
Proof.
  rewrite DataStore_store_eq. cbn zeta.
  do 3 eexists. split; [reflexivity|].
  unfold DataStore_retrieve, getAllIds; cbn [storage].
  split; [apply lookup_insert_eq|].
  split; [intros id' Hne; by apply lookup_insert_ne|].
  split; [apply dom_insert_L|reflexivity].
Qed.

(** X6.  [delete] answers whether the id led to a record; afterwards the
    id leads nowhere, every other id leads where it led before, and the
    ids are the former ones without the deleted one. *)
Theorem DataStore_delete_retrieve id this w :
  exists this',
    DataStore_delete id (this, w) =
      (Return (bool_decide (is_Some (DataStore_retrieve this id))),
       (this', w)) /\
    DataStore_retrieve this' id = None /\
    (forall id', id' <> id ->
       DataStore_retrieve this' id' = DataStore_retrieve this id') /\
    getAllIds this' = getAllIds this ∖ {[id]}.
Proof.
  exists (mkDataStore (delete id (storage this))). split; [reflexivity|].
  unfold DataStore_retrieve, getAllIds; cbn [storage].
  split; [apply lookup_delete_eq|].
  split; [intros id' Hne; by apply lookup_delete_ne|].
  apply dom_delete_L.
Qed.

(* ================================================================== *)
(** * The vault: what [store] and [retrieve] do to the state *)
(* ================================================================== *)



(** X8.  A [store] that throws throws "Failed to store data" and nothing
    else, and has changed neither the data store nor the key manager nor
    any binary object: no record is filed for a value that could not be
    encrypted. *)
Theorem store_failure P (value : JSValue P) s e s1 :
  store P value s = (Throw e, s1) ->
  e = Error "Failed to store data" /\
  fst s1 = fst s /\
  heap (snd s1) = heap (snd s) /\
  timers (snd s1) = timers (snd s).
Proof.
  destruct s as [v w]. rewrite store_eq. cbn zeta.
  destruct (JSON_stringify P value); cbn; [|by intros [= <- <-]].
  destruct (currentKey (keyManager v)); cbn; [|by intros [= <- <-]].
  destruct (cipher P _ _ _ _); cbn; [discriminate|by intros [= <- <-]].
Qed.

Lemma store_failure_witness :
  Error "Failed to store data" = Error "Failed to store data" /\
  fst (fst Scenario.keyless, drew 12 (snd Scenario.keyless))
    = fst Scenario.keyless /\
  heap (snd (fst Scenario.keyless, drew 12 (snd Scenario.keyless)))
    = heap (snd Scenario.keyless) /\
  timers (snd (fst Scenario.keyless, drew 12 (snd Scenario.keyless)))
    = timers (snd Scenario.keyless).
Proof.
  apply (store_failure Demo.platform Demo.payload Scenario.keyless).
  vm_compute. reflexivity.
Defined.

Lemma retrieve_missing P v w id :
  DataStore_retrieve (dataStore v) id = None ->
  retrieve P id (v, w) = (Throw (Error "Record not found"), (v, w)).
Proof.
  intros Hrec.
  unfold retrieve, try_catch, bind at 1, self at 1. cbn [fst snd].
  by rewrite Hrec.
Qed.

Lemma supported_has_key n this (v : Z) :
  km_invariant n this ->
  isVersionSupported this v = true ->
  is_Some (getKeyByVersion this v).
Proof.
  intros [_ Hc _ _ _]. unfold isVersionSupported, getKeyByVersion.
  destruct (v =? currentVersion this); [done|]. cbn.
  intros H. apply andb_true_iff in H as [H1 H2]. rewrite H1.
  apply bool_decide_eq_true_1 in H2.
  destruct (previousKey this) as [k|]; [|done].
  rewrite bool_decide_eq_true_2 by by eexists. by eexists.
Qed.

(** How [retrieve] completes in a reachable vault: it is decided by
    whether the id leads to a record, whether the version of the record is
    supported, and how [decrypt] completes. *)
Lemma retrieve_cases P s id :
  vault_reachable P s ->
  match DataStore_retrieve (dataStore (fst s)) id with
  | None => retrieve P id s = (Throw (Error "Record not found"), s)
  | Some record =>
      if isVersionSupported (keyManager (fst s)) (rec_keyVersion record) then
        exists key,
          getKeyByVersion (keyManager (fst s)) (rec_keyVersion record)
            = Some key /\
          retrieve P id s =
          match decrypt P (encryptionService (fst s))
                  (base64_decode (rec_ciphertext record))
                  (base64_decode (rec_iv record))
                  (base64_decode (rec_tag record)) key (snd s) with
          | (Return value, _) =>
              (Return {| data := value;
                         meta_keyVersion := rec_keyVersion record;
                         meta_encryptedAt := rec_timestamp record |}, s)
          | (Throw e, _) => (Throw e, s)
          end
      else
        retrieve P id s =
        (Throw (Error (expired_message (rec_keyVersion record)
                         (currentVersion (keyManager (fst s)))
                         (previousVersion (keyManager (fst s))))), s)
  end.
Proof.
  intros Hreach. destruct (vault_reachable_km _ _ Hreach) as [n Hkm].
  pose proof (km_reachable_invariant _ _ _ Hkm) as Hinv.
  destruct s as [v w]. cbn [fst snd] in *.
  destruct (DataStore_retrieve (dataStore v) id) as [record|] eqn:Hrec;
    [|by apply retrieve_missing].
  destruct (isVersionSupported (keyManager v) (rec_keyVersion record)) eqn:Hsup.
  - destruct (supported_has_key _ _ _ Hinv Hsup) as [key Hkey].
    exists key. split; [exact Hkey|].
    rewrite (retrieve_supported P v w id record key Hrec Hsup Hkey).
    rewrite decrypt_eq.
    destruct (decipher P _ _ _ _ _); [|reflexivity].
    by destruct (JSON_parse P _).
  - apply retrieve_expired; [done..|]. apply Hinv.
Qed.

Lemma decrypt_error_cases e :
  decrypt_error e = Error "Decryption failed: Invalid key or tampered data" \/
  decrypt_error e = Error "Decryption operation failed".
Proof.
  unfold decrypt_error.
  destruct (includes auth_failure_text (message e)); [by left|by right].
Qed.

(** X9.  In a reachable vault a [retrieve] that throws leaves the state as
    it was and throws one of four errors: "Record not found", exactly when
    the id leads to no record; the expiry message, exactly when the record's
    version is neither the current nor the previous one; or one of the two
    errors of [decrypt].  "Decryption key not available" is never thrown,
    and neither is the TypeError of [getKeyInfo]. *)
Theorem retrieve_failures P s id e s' :
  vault_reachable P s ->
  retrieve P id s = (Throw e, s') ->
  s' = s /\
  match DataStore_retrieve (dataStore (fst s)) id with
  | None => e = Error "Record not found"
  | Some record =>
      if isVersionSupported (keyManager (fst s)) (rec_keyVersion record) then
        e = Error "Decryption failed: Invalid key or tampered data" \/
        e = Error "Decryption operation failed"
      else
        e = Error (expired_message (rec_keyVersion record)
                     (currentVersion (keyManager (fst s)))
                     (previousVersion (keyManager (fst s))))
  end.
Proof.
  intros Hreach Hthrow. pose proof (retrieve_cases P s id Hreach) as Hcases.
  destruct (DataStore_retrieve (dataStore (fst s)) id) as [record|].
  - destruct (isVersionSupported _ _).
    + destruct Hcases as (key & _ & Hret). rewrite Hret in Hthrow.
      rewrite decrypt_eq in Hthrow.
      destruct (decipher P _ _ _ _ _) as [pt|cause].
      * destruct (JSON_parse P _) as [value|cause]; [discriminate|].
        injection Hthrow as <- <-. split; [done|apply decrypt_error_cases].
      * injection Hthrow as <- <-. split; [done|apply decrypt_error_cases].
    + rewrite Hcases in Hthrow. by injection Hthrow as <- <-.
  - rewrite Hcases in Hthrow. by injection Hthrow as <- <-.
Qed.

Lemma retrieve_failures_witness :
  Demo.vault = Demo.vault /\
  match DataStore_retrieve (dataStore (fst Demo.vault)) "no-such-id" with
  | None => Error "Record not found" = Error "Record not found"
  | Some record =>
      if isVersionSupported (keyManager (fst Demo.vault))
           (rec_keyVersion record) then
        Error "Record not found"
          = Error "Decryption failed: Invalid key or tampered data" \/
        Error "Record not found" = Error "Decryption operation failed"
      else
        Error "Record not found"
        = Error (expired_message (rec_keyVersion record)
                   (currentVersion (keyManager (fst Demo.vault)))
                   (previousVersion (keyManager (fst Demo.vault))))
  end.
Proof.
  apply (retrieve_failures Demo.platform Demo.vault "no-such-id").
  - apply demo_vault_reachable.
  - vm_compute. reflexivity.
Defined.

(* ================================================================== *)
(** * How long a record stays readable *)
(* ================================================================== *)

(** What a [store] that returned has done. *)
Lemma store_receipt P (value : JSValue P) s r s1 :
  store P value s = (Return r, s1) ->
  exists text key ct tag,
    JSON_stringify P value = Some text /\
    currentKey (keyManager (fst s)) = Some key /\
    cipher P (algorithm (encryptionService (fst s))) (deref (snd s) key)
      (fresh_bytes (ivLength (encryptionService (fst s))) (snd s))
      (utf8_encode P text) = Return (ct, tag) /\
    DataStore_retrieve (dataStore (fst s1)) (res_id r) =
      Some (filed (currentVersion (keyManager (fst s)))
              (mkEncryptedData ct
                 (fresh_bytes (ivLength (encryptionService (fst s))) (snd s))
                 tag)
              (res_id r) (clock (snd s))) /\
    res_keyVersion r = currentVersion (keyManager (fst s)) /\
    res_timestamp r = clock (snd s) /\
    keyManager (fst s1) = keyManager (fst s) /\
    encryptionService (fst s1) = encryptionService (fst s) /\
    heap (snd s1) = heap (snd s).
Proof.
  destruct s as [v w]. rewrite store_eq. cbn zeta.
  destruct (JSON_stringify P value) as [text|]; cbn; [|discriminate].
  destruct (currentKey (keyManager v)) as [key|]; cbn; [|discriminate].
  destruct (cipher P _ _ _ _) as [[ct tag]|] eqn:Hc; cbn; [|discriminate].
  intros [= <- <-]. exists text, key, ct, tag. cbn.
  repeat split; try done.
  unfold DataStore_retrieve; cbn. apply lookup_insert_eq.
Qed.





Lemma history_reachable P n s s' :
  vault_reachable P s -> history P n s s' -> vault_reachable P s'.
Proof.
  intros (mk & interval & w & v0 & w0 & m & Hnew & Hh0) Hh.
  induction Hh as [s | n s s' c _ IH | n s v w1 w1' _ IH Ha].
  - by exists mk, interval, w, v0, w0, m.
  - destruct (IH Hh0) as (mk' & i' & w' & v0' & w0' & m' & Hnew' & Hh').
    exists mk', i', w', v0', w0', (m' + is_rotation c)%nat.
    split; [exact Hnew'|]. by apply history_call.
  - destruct (IH Hh0) as (mk' & i' & w' & v0' & w0' & m' & Hnew' & Hh').
    exists mk', i', w', v0', w0', m'.
    split; [exact Hnew'|]. by eapply history_ambient.
Qed.

Lemma store_reachable P (value : JSValue P) s :
  vault_reachable P s -> vault_reachable P (snd (store P value s)).
Proof.
  intros Hreach. apply (history_reachable P (0 + 0) s); [exact Hreach|].
  apply (history_call P 0 s s (CallStore value)), history_nil.
Qed.





Lemma demo_thrice : history Demo.platform 3 (snd Demo.stored) Scenario.thrice.
Proof.
  apply (history_call Demo.platform 2 _ _ CallForceRotation), demo_aged.
Qed.

(** X11.  Once two or more rotations lie between the [store] of a record
    and its [retrieve], the record is out of reach for good: after [n]
    rotations, [n] at least 2, [retrieve] throws the expiry message naming
    the record's version [V], the current version [V + n] and the previous
    version [V + n - 1], and changes nothing. *)
Theorem expired_after_two_rotations P (value : JSValue P) s r s1 n s2 :
  vault_reachable P s ->
  store P value s = (Return r, s1) ->
  history P n s1 s2 ->
  (2 <= n)%nat ->
  DataStore_retrieve (dataStore (fst s2)) (res_id r) =
    DataStore_retrieve (dataStore (fst s1)) (res_id r) ->
  retrieve P (res_id r) s2 =
  (Throw (Error (expired_message (res_keyVersion r)
                   (res_keyVersion r + Z.of_nat n)
                   (Some (res_keyVersion r + Z.of_nat n - 1)))), s2).
Proof.
  intros Hreach Hstore Hhist Hn Hsame.
  destruct (vault_reachable_km _ _ Hreach) as [n0 Hkm].
  destruct (store_receipt _ _ _ _ _ Hstore)
    as (text & key & ct & tag & _ & _ & _ & Hrec & HV & _ & Hkm1 & _ & _).
  assert (km_reachable P n0 (keyManager (fst s1), snd s1)) as Hkm'.
  { pose proof (store_frame P value s) as (_ & _ & Ha).
    rewrite Hstore in Ha. cbn [fst snd] in Ha.
    rewrite Hkm1. by eapply km_ambient. }
  pose proof (history_km_reachable _ _ _ _ _ Hhist Hkm') as Hkm2.
  destruct (km_reachable_invariant _ _ _ Hkm) as [Hv0 _ _ _ _].
  destruct (km_reachable_invariant _ _ _ Hkm2) as [Hv2 _ Hrot _ Hlater].
  destruct Hlater as [Hpv _]; [lia|].
  destruct s2 as [v2 w2]. cbn [fst snd] in *.
  rewrite <- Hsame in Hrec.
  rewrite (retrieve_expired P v2 w2 _ _ Hrec); [| |exact Hrot].
  - cbn [filed rec_keyVersion]. rewrite Hv2, Hpv, HV, Hv0.
    do 4 f_equal; [lia|f_equal; lia].
  - cbn [filed rec_keyVersion]. unfold isVersionSupported.
    rewrite Hv2, Hpv. apply orb_false_intro.
    + apply Z.eqb_neq. lia.
    + apply andb_false_intro1, bool_decide_eq_false_2.
      intros [= ?]. lia.
Qed.

Lemma expired_after_two_rotations_witness :
  retrieve Demo.platform (res_id Demo.receipt) Scenario.thrice =
  (Throw (Error
            "Key version 1 is no longer supported. Current: 4, Previous: 3"),
   Scenario.thrice).
Proof.
  apply (expired_after_two_rotations Demo.platform Demo.payload Demo.vault
           Demo.receipt (snd Demo.stored) 3 Scenario.thrice).
  - apply demo_vault_reachable.
  - apply demo_stored.
  - apply demo_thrice.
  - lia.
  - reflexivity.
Defined.

(* ================================================================== *)
(** * What the store of a reachable vault holds *)
(* ================================================================== *)

Lemma rotateKey_version P s :
  currentVersion (fst (snd (rotateKey P s))) = currentVersion (fst s) + 1.
Proof.
  destruct s as [this w]. rewrite rotateKey_eq.
  by destruct (hkdfSync P _ _ _ _ _).
Qed.

Lemma store_adds_one_record_frame P (value : JSValue P) s r s1 :
  store P value s = (Return r, s1) ->
  forall id, id <> res_id r ->
    DataStore_retrieve (dataStore (fst s1)) id
    = DataStore_retrieve (dataStore (fst s)) id.
Proof.
  destruct s as [v w]. rewrite store_eq. cbn zeta.
  destruct (JSON_stringify P value); cbn; [|discriminate].
  destruct (currentKey (keyManager v)); cbn; [|discriminate].
  destruct (cipher P _ _ _ _); cbn; [|discriminate].
  intros [= <- <-] id Hne. unfold DataStore_retrieve; cbn.
  by apply lookup_insert_ne.
Qed.

Lemma store_failure_frame P (value : JSValue P) s e s1 :
  store P value s = (Throw e, s1) ->
  e = Error "Failed to store data" /\ fst s1 = fst s /\
  heap (snd s1) = heap (snd s).
Proof.
  destruct s as [v w]. rewrite store_eq. cbn zeta.
  destruct (JSON_stringify P value); cbn; [|by intros [= <- <-]].
  destruct (currentKey (keyManager v)); cbn; [|by intros [= <- <-]].
  destruct (cipher P _ _ _ _); cbn; [discriminate|by intros [= <- <-]].
Qed.

Lemma history_records P n s0 s :
  history P n s0 s ->
  encryptionService (fst s0) = EncryptionService_new ->
  1 <= currentVersion (keyManager (fst s0)) ->
  (forall id record,
     DataStore_retrieve (dataStore (fst s0)) id = Some record ->
     rec_id record = id /\
     1 <= rec_keyVersion record <= currentVersion (keyManager (fst s0)) /\
     length (base64_decode (rec_iv record)) = 12%nat /\
     rec_metadata record = []) ->
  1 <= currentVersion (keyManager (fst s)) /\
  forall id record,
    DataStore_retrieve (dataStore (fst s)) id = Some record ->
    rec_id record = id /\
    1 <= rec_keyVersion record <= currentVersion (keyManager (fst s)) /\
    length (base64_decode (rec_iv record)) = 12%nat /\
    rec_metadata record = [].
Proof.
  intros Hh Hsvc0 Hv0 Hrec0.
  induction Hh as [s | n s s' c Hh IH | n s v w w' _ IH _];
    [by split| |exact (IH Hsvc0 Hv0 Hrec0)].
  destruct (IH Hsvc0 Hv0 Hrec0) as [Hv Hrec].
  pose proof (history_encryptionService _ _ _ _ Hh) as Hsvc.
  rewrite Hsvc0 in Hsvc.
  destruct s' as [v' w']. cbn [fst snd] in *.
  destruct c as [value | id0 | |]; cbn [after_call].
  - destruct (store P value (v', w')) as [[r|e] s1] eqn:Hstore; cbn [snd].
    + destruct (store_receipt _ _ _ _ _ Hstore)
        as (text & key & ct & tag & _ & _ & _ & Hnew & HV & _ & Hkm1 & _ & _).
      pose proof (store_adds_one_record_frame P value (v', w') r s1 Hstore)
        as Hother.
      cbn [fst snd] in *. rewrite Hkm1. split; [exact Hv|].
      intros id record Hid.
      destruct (decide (id = res_id r)) as [->|Hne].
      * rewrite Hnew in Hid. injection Hid as <-.
        rewrite Hsvc. unfold filed.
        cbn [rec_id rec_keyVersion rec_iv rec_metadata enc_iv].
        rewrite base64_inverse, fresh_bytes_length.
        change (ivLength EncryptionService_new) with 12%nat.
        repeat split; lia.
      * rewrite (Hother id Hne) in Hid. by apply Hrec.
    + destruct (store_failure_frame P value (v', w') e s1 Hstore)
        as (_ & -> & _).
      by split.
  - rewrite retrieve_state. by split.
  - unfold Vault_forceRotation, forceRotation. rewrite zoom_rotateKey.
    cbn [fst snd keyManager dataStore set_keyManager].
    rewrite (rotateKey_version P (keyManager v', w')). cbn [fst].
    split; [lia|]. intros id record Hid.
    destruct (Hrec id record Hid) as (? & ? & ? & ?). repeat split; try done; lia.
  - rewrite zoom_rotateKey.
    cbn [fst snd keyManager dataStore set_keyManager].
    rewrite (rotateKey_version P (keyManager v', w')). cbn [fst].
    split; [lia|]. intros id record Hid.
    destruct (Hrec id record Hid) as (? & ? & ? & ?). repeat split; try done; lia.
Qed.

Lemma reachable_records P s id record :
  vault_reachable P s ->
  DataStore_retrieve (dataStore (fst s)) id = Some record ->
  rec_id record = id /\
  1 <= rec_keyVersion record <= currentVersion (keyManager (fst s)) /\
  length (base64_decode (rec_iv record)) = 12%nat /\
  rec_metadata record = [].
Proof.
  intros (mk & interval & w & v0 & w0 & n & Hnew & Hh) Hrec.
  apply VaultService_new_km in Hnew as (Hnew & Hds & Hsvc).
  destruct (constructor_initial_state _ _ _ _ _ _ Hnew) as (Hv & _).
  refine (proj2 (history_records _ _ _ _ Hh Hsvc _ _) id record Hrec).
  - cbn. lia.
  - cbn. rewrite Hds. intros id' record'. unfold DataStore_retrieve. cbn.
    by rewrite lookup_empty.
Qed.

(** X12.  Every record in the store of a reachable vault is filed under
    its own id, carries a key version between 1 and the current one, an iv
    text that decodes to 12 octets, and empty metadata.  No record is ever
    ahead of the key manager. *)
Theorem stored_records_wellformed P s id record :
  vault_reachable P s ->
  DataStore_retrieve (dataStore (fst s)) id = Some record ->
  rec_id record = id /\
  1 <= rec_keyVersion record <= currentVersion (keyManager (fst s)) /\
  length (base64_decode (rec_iv record)) = 12%nat /\
  rec_metadata record = [].
Proof. apply reachable_records. Qed.

Lemma stored_records_wellformed_witness :
  exists record,
    DataStore_retrieve (dataStore (fst Scenario.thrice)) (res_id Demo.receipt)
      = Some record /\
    rec_id record = res_id Demo.receipt /\
    1 <= rec_keyVersion record
      <= currentVersion (keyManager (fst Scenario.thrice)) /\
    length (base64_decode (rec_iv record)) = 12%nat /\
    rec_metadata record = [].
Proof.
  assert (vault_reachable Demo.platform Scenario.thrice) as Hreach.
  { apply (history_reachable Demo.platform 3 (snd Demo.stored));
      [|apply demo_thrice].
    apply (store_reachable Demo.platform Demo.payload Demo.vault).
    apply demo_vault_reachable. }
  destruct (DataStore_retrieve (dataStore (fst Scenario.thrice))
              (res_id Demo.receipt)) as [record|] eqn:Hrec;
    [|by vm_compute in Hrec].
  exists record. split; [reflexivity|].
  exact (stored_records_wellformed Demo.platform Scenario.thrice
           (res_id Demo.receipt) record Hreach Hrec).
Defined.

(* ================================================================== *)
(** * The HTTP handlers *)
(* ================================================================== *)

(** Closes a goal whose hypothesis, taken apart, contradicts itself. *)
Ltac refute_case :=
  let H := fresh in
  intros H;
  repeat match goal with
         | H : _ /\ _ |- _ => destruct H
         | H : _ \/ _ |- _ => destruct H
         | H : ex _ |- _ => destruct H
         end;
  simplify_eq; congruence.

Lemma get_retrieve_cases P s id :
  vault_reachable P s ->
  id <> "" ->
  get_retrieve P (Some id) s =
  match DataStore_retrieve (dataStore (fst s)) id with
  | None => (mkResponse 404 (BodyError "Record not found" None (Some id)), s)
  | Some record =>
      if isVersionSupported (keyManager (fst s)) (rec_keyVersion record) then
        match retrieve P id s with
        | (Return result, _) => (mkResponse 200 (BodyRetrieved result), s)
        | (Throw e, _) =>
            (mkResponse 500
               (BodyError "Failed to retrieve data" (Some (message e)) None),
             s)
        end
      else
        (mkResponse 410
           (BodyError "Key version expired"
              (Some (expired_message (rec_keyVersion record)
                       (currentVersion (keyManager (fst s)))
                       (previousVersion (keyManager (fst s)))))
              None), s)
  end.
Proof.
  intros Hreach Hid. unfold get_retrieve.
  apply String.eqb_neq in Hid. rewrite Hid.
  pose proof (retrieve_cases P s id Hreach) as Hcases.
  destruct (DataStore_retrieve (dataStore (fst s)) id) as [record|].
  - destruct (isVersionSupported _ _).
    + destruct Hcases as (key & _ & Hret). rewrite Hret, decrypt_eq.
      destruct (decipher P _ _ _ _ _) as [pt|cause].
      * destruct (JSON_parse P _) as [value|cause]; [reflexivity|].
        by destruct (decrypt_error_cases cause) as [-> | ->].
      * by destruct (decrypt_error_cases cause) as [-> | ->].
    + rewrite Hcases. cbn [message].
      destruct (expired_message_status (rec_keyVersion record)
                  (currentVersion (keyManager (fst s)))
                  (previousVersion (keyManager (fst s))))
        as (Hst & Hnf & _).
      unfold retrieve_status in Hst. cbn [message] in Hst.
      apply String.eqb_neq in Hnf. rewrite Hnf in *.
      destruct (includes "no longer supported" _); [reflexivity|discriminate].
  - by rewrite Hcases.
Qed.

(** X13.  What [GET /api/vault/retrieve] answers on a reachable vault.  It
    answers 400 exactly when the id is missing or empty; 404 exactly when
    the id leads to no record; 410 exactly when the record's key version is
    no longer supported; 200, with the result of [retrieve], exactly when
    [retrieve] returns; and 500 in the remaining case, a supported record
    that [decrypt] refuses.  The vault is never changed. *)
Theorem get_retrieve_status P s id :
  vault_reachable P s ->
  snd (get_retrieve P id s) = s /\
  (resp_status (fst (get_retrieve P id s)) = 400 <->
   id = None \/ id = Some "") /\
  (resp_status (fst (get_retrieve P id s)) = 404 <->
   exists i, id = Some i /\ i <> "" /\
     DataStore_retrieve (dataStore (fst s)) i = None) /\
  (resp_status (fst (get_retrieve P id s)) = 410 <->
   exists i record, id = Some i /\ i <> "" /\
     DataStore_retrieve (dataStore (fst s)) i = Some record /\
     isVersionSupported (keyManager (fst s)) (rec_keyVersion record) = false) /\
  (resp_status (fst (get_retrieve P id s)) = 200 <->
   exists i result, id = Some i /\ i <> "" /\
     retrieve P i s = (Return result, s) /\
     resp_body (fst (get_retrieve P id s)) = BodyRetrieved result) /\
  (resp_status (fst (get_retrieve P id s)) = 500 <->
   exists i record e, id = Some i /\ i <> "" /\
     DataStore_retrieve (dataStore (fst s)) i = Some record /\
     isVersionSupported (keyManager (fst s)) (rec_keyVersion record) = true /\
     retrieve P i s = (Throw e, s)).
Proof.
  intros Hreach.
  destruct id as [i|]; [destruct (decide (i = "")) as [->|Hi]|].
  - cbn. repeat split; try discriminate; try done; try refute_case.
    intros _; by right.
  - rewrite (get_retrieve_cases P s i Hreach Hi).
    pose proof (retrieve_state P i s) as Hst.
    pose proof (retrieve_cases P s i Hreach) as Hc.
    destruct (DataStore_retrieve (dataStore (fst s)) i) as [record|] eqn:Hrec.
    + destruct (isVersionSupported _ _) eqn:Hsup.
      * clear Hc.
        destruct (retrieve P i s) as [[result|e] s'] eqn:Hret;
          cbn [snd] in Hst; subst s'; cbn [fst snd resp_status resp_body].
        -- repeat split; try discriminate; try done; try refute_case.
           intros _; by exists i, result.
        -- repeat split; try discriminate; try done; try refute_case.
           intros _; by exists i, record, e.
      * cbn [fst snd resp_status resp_body].
        repeat split; try discriminate; try done; try refute_case.
        intros _; by exists i, record.
    + cbn [fst snd resp_status resp_body].
      repeat split; try discriminate; try done; try refute_case.
      intros _; by exists i.
  - cbn. repeat split; try discriminate; try done; try refute_case.
    intros _; by left.
Qed.

Lemma demo_aged_reachable : vault_reachable Demo.platform Demo.aged.
Proof.
  apply (history_reachable Demo.platform 2 (snd Demo.stored));
    [|apply demo_aged].
  apply (store_reachable Demo.platform Demo.payload Demo.vault).
  apply demo_vault_reachable.
Qed.

Lemma get_retrieve_status_witness :
  resp_status
    (fst (get_retrieve Demo.platform (Some (res_id Demo.receipt)) Demo.aged))
  = 410.
Proof.
  destruct (get_retrieve_status Demo.platform Demo.aged
              (Some (res_id Demo.receipt)) demo_aged_reachable)
    as (_ & _ & _ & H410 & _).
  apply H410.
  destruct (DataStore_retrieve (dataStore (fst Demo.aged))
              (res_id Demo.receipt)) as [record|] eqn:Hrec;
    [|by vm_compute in Hrec].
  exists (res_id Demo.receipt), record.
  split; [reflexivity|]. split; [by vm_compute|]. split; [exact Hrec|].
  vm_compute in Hrec. injection Hrec as <-. reflexivity.
Defined.

(** X14.  What [POST /api/vault/store] answers.  It answers 400 exactly
    when the body has no [data] or a [data] that counts as false, and then
    [store] is not called; 201, with the result of [store], exactly when
    [store] returns; 500 exactly when [store] throws, and the message it
    passes on is then "Failed to store data".  Unless the answer is 201 the
    vault's objects are as before. *)
Theorem post_store_status P truthy data s :
  (resp_status (fst (post_store P truthy data s)) = 400 <->
   data = None \/ exists d, data = Some d /\ truthy d = false) /\
  (resp_status (fst (post_store P truthy data s)) = 201 <->
   exists d r, data = Some d /\ truthy d = true /\
     store P d s = (Return r, snd (post_store P truthy data s)) /\
     resp_body (fst (post_store P truthy data s)) = BodyStored r) /\
  (resp_status (fst (post_store P truthy data s)) = 500 <->
   exists d, data = Some d /\ truthy d = true /\
     fst (store P d s) = Throw (Error "Failed to store data") /\
     resp_body (fst (post_store P truthy data s))
       = BodyError "Failed to store data" (Some "Failed to store data") None) /\
  (resp_status (fst (post_store P truthy data s)) <> 201 ->
   fst (snd (post_store P truthy data s)) = fst s /\
   heap (snd (snd (post_store P truthy data s))) = heap (snd s)).
Proof.
  unfold post_store. destruct data as [d|].
  - destruct (truthy d) eqn:Ht.
    + destruct (store P d s) as [[r|e] s1] eqn:Hstore;
        cbn [fst snd resp_status resp_body].
      * repeat split; try discriminate; try done; try refute_case.
        all: intros _; by exists d, r.
      * destruct (store_failure_frame P d s e s1 Hstore) as (-> & Hs & Hh).
        repeat split; try discriminate; try done; try refute_case.
        all: intros _; exists d; by rewrite Hstore.
    + cbn [fst snd resp_status resp_body].
      repeat split; try discriminate; try done; try refute_case.
      all: intros _; right; by exists d.
  - cbn [fst snd resp_status resp_body].
    repeat split; try discriminate; try done; try refute_case.
    all: intros _; by left.
Qed.

(** X15.  In a reachable vault [store] returns exactly for the values that
    [JSON.stringify] prints: with a key manager that was constructed, the
    key and the iv always suit the cipher, so that nothing else can make
    it throw. *)
Theorem store_returns_iff P (HP : PlatformSpec P) s (value : JSValue P) :
  vault_reachable P s ->
  (exists r s1, store P value s = (Return r, s1)) <->
  is_Some (JSON_stringify P value).
Proof.
  intros Hreach.
  destruct (vault_reachable_current_key P HP s Hreach)
    as (Hsvc & key & Hkey & Hlen).
  destruct s as [v w]. cbn [fst snd] in *.
  rewrite store_eq. cbn zeta. rewrite Hkey, Hsvc.
  change (ivLength EncryptionService_new) with 12%nat.
  change (algorithm EncryptionService_new) with "aes-256-gcm".
  destruct (JSON_stringify P value) as [text|].
  - destruct (gcm_accepts (deref w key) (fresh_bytes 12 w)
                (utf8_encode P text) Hlen (fresh_bytes_length _ _))
      as (ct & tag & ->).
    split; [by eexists|]. intros _. by do 2 eexists.
  - split; [intros (r & s1 & [=])|intros [? [=]]].
Qed.

Lemma store_returns_iff_witness :
  (exists r s1, store Demo.platform Demo.payload Demo.aged = (Return r, s1)) <->
  is_Some (JSON_stringify Demo.platform Demo.payload).
Proof.
  exact (store_returns_iff Demo.platform demo_platform_spec Demo.aged
           Demo.payload demo_aged_reachable).
Defined.

Lemma Vault_forceRotation_eq P v w :
  Vault_forceRotation P (v, w) =
  (fst (rotateKey P (keyManager v, w)),
   (set_keyManager (fst (snd (rotateKey P (keyManager v, w)))) v,
    snd (snd (rotateKey P (keyManager v, w))))).
Proof.
  unfold Vault_forceRotation, forceRotation, zoom. cbn [fst snd].
  by destruct (rotateKey P (keyManager v, w)) as [c [u w']].
Qed.

(** X16.  What [POST /api/vault/rotate] answers.  It answers 200 exactly
    when the rotation completed, and then reports the new current version,
    one above the old, the old current version as the previous one, and
    the time of the call as the time of the last rotation; otherwise it
    answers 500.  Either way the current version has gone up by one and the
    data store is as before. *)
Theorem post_rotate_status P s :
  currentVersion (keyManager (fst (snd (post_rotate P s))))
    = currentVersion (keyManager (fst s)) + 1 /\
  dataStore (fst (snd (post_rotate P s))) = dataStore (fst s) /\
  (resp_status (fst (post_rotate P s)) = 200 <->
   fst (Vault_forceRotation P s) = Return tt) /\
  (resp_status (fst (post_rotate P s)) = 500 <->
   exists e, fst (Vault_forceRotation P s) = Throw e) /\
  (resp_status (fst (post_rotate P s)) = 200 ->
   exists info,
     resp_body (fst (post_rotate P s))
       = BodyRotated "Key rotation completed" info /\
     info_currentVersion info = currentVersion (keyManager (fst s)) + 1 /\
     info_previousVersion info = Some (currentVersion (keyManager (fst s))) /\
     info_lastRotationTime info = clock (snd s) /\
     info_nextRotationTime info
       = clock (snd s) + rotationIntervalMs (keyManager (fst s))).
Proof.
  destruct s as [v w]. unfold post_rotate. rewrite Vault_forceRotation_eq.
  cbn [fst snd]. rewrite rotateKey_eq.
  destruct (hkdfSync P _ _ _ _ _) as [derived|e]; cbn.
  - repeat split; try discriminate; try done; try refute_case.
    all: intros _; by eexists.
  - repeat split; try discriminate; try done; try refute_case.
    all: intros _; by eexists.
Qed.

(* ================================================================== *)
(** * Statistics *)
(* ================================================================== *)

Lemma counts_lookup (records : list StoredRecord) (m : gmap Z nat) (v : Z) :
  fold_left count_version records m !! v =
  match length (filter (fun r => rec_keyVersion r = v) records) with
  | O => m !! v
  | S k => Some (default 0 (m !! v) + S k)%nat
  end.
Proof.
  revert m. induction records as [|r records IH]; intros m; [reflexivity|].
  cbn [fold_left]. rewrite IH. unfold count_version.
  destruct (decide (rec_keyVersion r = v)) as [Hv|Hv].
  - rewrite filter_cons_True by done. rewrite Hv, lookup_insert_eq. cbn.
    destruct (length _); f_equal; lia.
  - rewrite filter_cons_False by done. by rewrite lookup_insert_ne.
Qed.

Lemma counts_total (records : list StoredRecord) (m : gmap Z nat) :
  map_fold (fun _ n acc => (n + acc)%nat) 0%nat
    (fold_left count_version records m) =
  (map_fold (fun _ n acc => (n + acc)%nat) 0%nat m + length records)%nat.
Proof.
  revert m. induction records as [|r records IH]; intros m; cbn; [lia|].
  rewrite IH. unfold count_version.
  set (v := rec_keyVersion r).
  assert (forall (m0 : gmap Z nat) x, m0 !! v = None ->
            map_fold (fun _ n acc => (n + acc)%nat) 0%nat (<[v:=x]> m0) =
            (x + map_fold (fun _ n acc => (n + acc)%nat) 0%nat m0)%nat)
    as Hins.
  { intros m0 x Hm0. apply (map_fold_insert_L (fun _ n acc => (n + acc)%nat));
      [intros; lia|done]. }
  destruct (m !! v) as [x|] eqn:Hx; cbn.
  - rewrite <- (insert_delete_eq m), Hins by apply lookup_delete_eq.
    rewrite <- (insert_delete_id m v x Hx) at 2.
    rewrite Hins by apply lookup_delete_eq. lia.
  - rewrite Hins by done. lia.
Qed.

Lemma oldest_least (rest : list StoredRecord) (first : StoredRecord) :
  fold_left older rest first ∈ first :: rest /\
  forall r, r ∈ first :: rest ->
    rec_timestamp (fold_left older rest first) <= rec_timestamp r.
Proof.
  revert first. induction rest as [|x rest IH]; intros first; cbn.
  - split; [by left|]. intros r Hr. apply list_elem_of_singleton in Hr.
    subst. lia.
  - destruct (IH (older first x)) as [Hin Hle]. split.
    + apply elem_of_cons in Hin as [Hin|Hin]; [|by do 2 right].
      rewrite Hin. unfold older. destruct (_ <? _); [right; by left|by left].
    + intros r Hr.
      assert (rec_timestamp (older first x) <= rec_timestamp first /\
              rec_timestamp (older first x) <= rec_timestamp x) as [Hf Hx].
      { unfold older. destruct (Z.ltb_spec (rec_timestamp x)
                                  (rec_timestamp first)); lia. }
      pose proof (Hle (older first x) (ltac:(by left))) as Hmin.
      apply elem_of_cons in Hr as [->|Hr]; [lia|].
      apply elem_of_cons in Hr as [->|Hr]; [lia|].
      apply Hle. by right.
Qed.

(** X17.  The counts of [getStats]: [totalRecords] is the number of
    records; [recordsByVersion] has an entry for a version exactly when
    some record carries it, and the entry is the number of such records;
    the entries add up to [totalRecords]. *)
Theorem getStats_counts (this : DataStore) :
  totalRecords (DataStore_getStats this) = size (storage this) /\
  (forall v,
     recordsByVersion (DataStore_getStats this) !! v =
     match length (filter (fun r => rec_keyVersion r = v)
                     (map_to_list (storage this)).*2) with
     | O => None
     | n => Some n
     end) /\
  map_fold (fun _ n acc => (n + acc)%nat) 0%nat
    (recordsByVersion (DataStore_getStats this))
  = totalRecords (DataStore_getStats this).
Proof.
  unfold DataStore_getStats, stats_of.
  cbn [totalRecords recordsByVersion].
  split; [reflexivity|]. split.
  - intros v. rewrite counts_lookup, lookup_empty. by destruct (length _).
  - rewrite counts_total, map_fold_empty, length_fmap.
    by rewrite length_map_to_list.
Qed.

Lemma records_elem_of (this : DataStore) (r : StoredRecord) :
  r ∈ (map_to_list (storage this)).*2 <->
  exists id, DataStore_retrieve this id = Some r.
Proof.
  unfold DataStore_retrieve. rewrite list_elem_of_fmap. split.
  - intros ([id r'] & -> & Hin). exists id. by apply elem_of_map_to_list.
  - intros (id & Hid). exists (id, r). split; [done|].
    by apply elem_of_map_to_list.
Qed.

(** X18.  The [oldestRecord] of [getStats] is [null] exactly for an empty
    store; otherwise it is the timestamp of a record of the store, and no
    record has an earlier one. *)
Theorem getStats_oldest (this : DataStore) :
  (oldestRecord (DataStore_getStats this) = None <-> storage this = ∅) /\
  forall t,
    oldestRecord (DataStore_getStats this) = Some t ->
    (exists id r,
       DataStore_retrieve this id = Some r /\ rec_timestamp r = t) /\
    (forall id r,
       DataStore_retrieve this id = Some r -> t <= rec_timestamp r).
Proof.
  pose proof (records_elem_of this) as Helem.
  unfold DataStore_getStats, stats_of. cbn [oldestRecord].
  destruct ((map_to_list (storage this)).*2) as [|first rest] eqn:Hl.
  - split.
    + split; [intros _|done]. apply fmap_nil_inv in Hl.
      by apply map_to_list_empty_iff.
    + discriminate.
  - split.
    + split; [discriminate|]. intros Hempty.
      rewrite Hempty, map_to_list_empty in Hl. discriminate.
    + intros t [= <-]. destruct (oldest_least rest first) as [Hin Hle].
      split.
      * apply Helem in Hin as [id Hid]. by exists id, (fold_left older rest first).
      * intros id r Hid. apply Hle, Helem. by exists id.
Qed.

(** X19.  [getStats] does not depend on the order in which the records
    are handed out: any two enumerations of the same records give the same
    counts per version and the same oldest timestamp. *)
Theorem stats_of_permutation (size : nat) (l l' : list StoredRecord) :
  l ≡ₚ l' -> stats_of size l = stats_of size l'.
Proof.
  intros Hperm. unfold stats_of. f_equal.
  - apply map_eq. intros v. rewrite !counts_lookup.
    by rewrite (Permutation_length
                  (filter_Permutation (fun r => rec_keyVersion r = v) _ _ Hperm)).
  - destruct l as [|a l1], l' as [|b l2]; [done| | |].
    + by apply Permutation_nil_cons in Hperm.
    + symmetry in Hperm. by apply Permutation_nil_cons in Hperm.
    + destruct (oldest_least l1 a) as [Hin Hle].
      destruct (oldest_least l2 b) as [Hin' Hle'].
      f_equal. apply Z.le_antisymm.
      * apply Hle. by rewrite Hperm.
      * apply Hle'. by rewrite <- Hperm.
Qed.

Lemma stats_of_permutation_witness :
  stats_of 2 [filed 1 (mkEncryptedData [] [] []) "a" 10;
              filed 2 (mkEncryptedData [] [] []) "b" 5] =
  stats_of 2 [filed 2 (mkEncryptedData [] [] []) "b" 5;
              filed 1 (mkEncryptedData [] [] []) "a" 10].
Proof. apply stats_of_permutation. apply perm_swap. Defined.

(** X20.  On a reachable vault [getStats] returns and [GET
    /api/vault/stats] answers 200 with it, changing nothing.  The key info
    shows the current version, a previous version that is absent or one
    below it, and a next rotation one interval after the last; and the
    counts per version only mention versions between 1 and the current
    one. *)
Theorem get_stats_reachable P s :
  vault_reachable P s ->
  exists stats,
    Vault_getStats (fst s) = Return stats /\
    get_stats P s = (mkResponse 200 (BodyStats stats), s) /\
    storeStats stats = DataStore_getStats (dataStore (fst s)) /\
    info_currentVersion (keyInfo stats) = currentVersion (keyManager (fst s)) /\
    (info_previousVersion (keyInfo stats) = None \/
     info_previousVersion (keyInfo stats)
       = Some (info_currentVersion (keyInfo stats) - 1)) /\
    info_nextRotationTime (keyInfo stats)
      = info_lastRotationTime (keyInfo stats)
        + rotationIntervalMs (keyManager (fst s)) /\
    (forall v n,
       recordsByVersion (storeStats stats) !! v = Some n ->
       1 <= v <= info_currentVersion (keyInfo stats)).
Proof.
  intros Hreach. destruct (vault_reachable_km _ _ Hreach) as [n Hkm].
  destruct (km_reachable_invariant _ _ _ Hkm) as [Hv _ [t Ht] Hfirst Hlater].
  cbn [fst snd] in *.
  unfold get_stats, Vault_getStats, getKeyInfo. rewrite Ht.
  eexists. split; [reflexivity|]. split; [reflexivity|].
  cbn [keyInfo storeStats info_currentVersion info_previousVersion
         info_lastRotationTime info_nextRotationTime].
  split; [reflexivity|]. split; [reflexivity|]. split; [|split; [reflexivity|]].
  - destruct n as [|n].
    + left. by destruct (Hfirst eq_refl).
    + right. destruct Hlater as [-> _]; [lia|]. f_equal. lia.
  - intros v k Hk.
    unfold DataStore_getStats, stats_of in Hk. cbn [recordsByVersion] in Hk.
    rewrite counts_lookup, lookup_empty in Hk.
    destruct (filter _ _) as [|r rest] eqn:Hf; [discriminate|].
    assert (r ∈ filter (fun r => rec_keyVersion r = v)
              (map_to_list (storage (dataStore (fst s)))).*2) as Hin
      by (rewrite Hf; by left).
    apply list_elem_of_filter in Hin as [<- Hin].
    apply records_elem_of in Hin as [id Hid].
    by destruct (reachable_records P s id r Hreach Hid) as (_ & ? & _).
Qed.

Lemma get_stats_reachable_witness :
  exists stats,
    Vault_getStats (fst Demo.aged) = Return stats /\
    get_stats Demo.platform Demo.aged = (mkResponse 200 (BodyStats stats), Demo.aged) /\
    storeStats stats = DataStore_getStats (dataStore (fst Demo.aged)) /\
    info_currentVersion (keyInfo stats)
      = currentVersion (keyManager (fst Demo.aged)) /\
    (info_previousVersion (keyInfo stats) = None \/
     info_previousVersion (keyInfo stats)
       = Some (info_currentVersion (keyInfo stats) - 1)) /\
    info_nextRotationTime (keyInfo stats)
      = info_lastRotationTime (keyInfo stats)
        + rotationIntervalMs (keyManager (fst Demo.aged)) /\
    (forall v n,
       recordsByVersion (storeStats stats) !! v = Some n ->
       1 <= v <= info_currentVersion (keyInfo stats)).
Proof.
  exact (get_stats_reachable Demo.platform Demo.aged demo_aged_reachable).
Defined.

(* ================================================================== *)
(** * Construction, rotation and shutdown of the key manager *)
(* ================================================================== *)

Lemma string_ind2 (Pr : string -> Prop) :
  Pr "" -> (forall a, Pr (String a "")) ->
  (forall a b s, Pr s -> Pr (String a (String b s))) ->
  forall s, Pr s.
Proof.
  intros H0 H1 H2 s.
  enough (Pr s /\ forall a, Pr (String a s)) by tauto.
  induction s as [|x s [IH0 IH1]]; [by auto|].
  split; [apply IH1|]. intros a. by apply H2.
Qed.

(** A text of even length decodes to half as many octets exactly when all
    its characters are hexadecimal digits; otherwise to fewer. *)
Lemma hex_decode_length (s : string) :
  Nat.Even (String.length s) ->
  (length (hex_decode s) <= String.length s / 2)%nat /\
  (length (hex_decode s) = (String.length s / 2)%nat <-> is_hex s = true).
Proof.
  induction s as [|a|a b s IH] using string_ind2.
  - intros _. by cbn.
  - intros [k Hk]. cbn in Hk. lia.
  - intros Heven.
    assert (Nat.Even (String.length s)) as Hs.
    { destruct Heven as [k Hk]. cbn in Hk. exists (k - 1)%nat. lia. }
    destruct (IH Hs) as [Hle Hiff].
    change (String.length (String a (String b s)))
      with (S (S (String.length s))).
    replace (S (S (String.length s)) / 2)%nat
      with (S (String.length s / 2))
      by (destruct Hs as [k ->];
          replace (S (S (2 * k))) with ((1 + k) * 2)%nat by lia;
          rewrite Nat.div_mul by lia;
          replace (2 * k)%nat with (k * 2)%nat by lia;
          rewrite Nat.div_mul by lia; lia).
    cbn [hex_decode is_hex].
    destruct (unhex a), (unhex b); cbn [length].
    + split; [lia|]. rewrite <- Hiff. lia.
    + split; [lia|]. split; [lia|discriminate].
    + split; [lia|]. split; [lia|discriminate].
    + split; [lia|]. split; [lia|discriminate].
Qed.

(** X21.  A manager constructed from a secret keeps, as its master key,
    the octets the secret decodes to as hexadecimal text.  They are 32
    exactly when all 64 characters of the secret are hexadecimal digits,
    and fewer than 32 otherwise. *)
Theorem constructor_master_key P s interval w this w' :
  KeyManager_new P (Some s) interval w = (Return this, w') ->
  String.length s = 64%nat /\
  heap w' !! masterKeyBuffer this = Some (Buffer (hex_decode s)) /\
  (length (hex_decode s) <= 32)%nat /\
  (length (hex_decode s) = 32%nat <-> is_hex s = true).
Proof.
  intros Hnew.
  destruct (decide (String.length s = 64%nat)) as [Hlen|Hlen];
    [|rewrite KeyManager_new_guard in Hnew by eauto; discriminate].
  split; [exact Hlen|].
  rewrite KeyManager_new_eq in Hnew by done.
  destruct (hkdfSync P _ _ _ _ _) as [derived|]; [|discriminate].
  injection Hnew as <- <-. cbn [masterKeyBuffer heap]. split.
  - by apply list_lookup_middle.
  - assert (Nat.Even (String.length s)) as Heven
      by (rewrite Hlen; by exists 32%nat).
    destruct (hex_decode_length s Heven) as [Hle Hiff].
    rewrite Hlen in Hle, Hiff. by split.
Qed.

Lemma constructor_master_key_witness :
  String.length Demo.master_key = 64%nat /\
  heap (snd Demo.created) !! masterKeyBuffer (fst Demo.created)
    = Some (Buffer (hex_decode Demo.master_key)) /\
  (length (hex_decode Demo.master_key) <= 32)%nat /\
  (length (hex_decode Demo.master_key) = 32%nat
   <-> is_hex Demo.master_key = true).
Proof.
  exact (constructor_master_key Demo.platform Demo.master_key None Demo.world
           (fst Demo.created) (snd Demo.created) demo_created).
Defined.

(** X22.  The constructor and the timer.  A constructor that returns has
    scheduled exactly one interval timer, the one its [rotationTimer]
    names, and takes one hour as the interval when none is given.  A
    constructor that throws has scheduled none; when the secret has the
    wrong length nothing at all has happened, and when the derivation
    throws the copy of the secret it had already made stays in memory. *)
Theorem constructor_timer P masterKey interval w :
  match KeyManager_new P masterKey interval w with
  | (Return this, w') =>
      rotationTimer this = Some (next_timer w) /\
      timers w' = next_timer w :: timers w /\
      rotationIntervalMs this = default 3600000 interval
  | (Throw e, w') =>
      timers w' = timers w /\
      (e = invalid_master_key /\ w' = w \/
       exists s, masterKey = Some s /\ String.length s = 64%nat /\
         heap w' = (heap w ++ [Buffer (hex_decode s)])%list)
  end.
Proof.
  destruct masterKey as [s|]; [|cbn; by auto].
  destruct (decide (String.length s = 64%nat)) as [Hlen|Hlen].
  - rewrite KeyManager_new_eq by done.
    destruct (hkdfSync P _ _ _ _ _) as [derived|e]; cbn; [done|].
    split; [done|]. right. by exists s.
  - rewrite KeyManager_new_guard by eauto. by auto.
Qed.

(** X23.  A rotation that completes on a reachable key manager installs a
    key object that did not exist before: a new [ArrayBuffer] holding what
    HKDF derives from the master key, the next 32 octets of the random
    source, and the label of the new version.  The key
    that was current becomes the previous one and is a different object;
    every object that existed keeps its content, the time of the rotation
    is the clock's, and the master key, the interval and the timer are
    the same. *)
Theorem rotation_installs_fresh_key P n s s' :
  km_reachable P n s ->
  rotateKey P s = (Return tt, s') ->
  exists key derived,
    currentKey (fst s') = Some key /\
    heap (snd s) !! key = None /\
    heap (snd s') !! key = Some (ArrayBuffer derived) /\
    hkdfSync P "sha256" (deref (snd s) (masterKeyBuffer (fst s)))
      (fresh_bytes 32 (snd s)) (key_info P (Z.of_nat n + 2)) 32
      = Return derived /\
    drawn (snd s') = (drawn (snd s) + 32)%nat /\
    previousKey (fst s') = currentKey (fst s) /\
    previousKey (fst s') <> Some key /\
    (forall r o, heap (snd s) !! r = Some o -> heap (snd s') !! r = Some o) /\
    lastRotationTime (fst s') = Some (clock (snd s)) /\
    masterKeyBuffer (fst s') = masterKeyBuffer (fst s) /\
    rotationIntervalMs (fst s') = rotationIntervalMs (fst s) /\
    rotationTimer (fst s') = rotationTimer (fst s) /\
    timers (snd s') = timers (snd s).
Proof.
  intros Hreach Hrot.
  pose proof (km_reachable_invariant P n s Hreach) as Hinv.
  pose proof (km_reachable_heap P n s Hreach) as Hheap.
  destruct s as [this w]. cbn [fst snd] in *.
  rewrite rotateKey_eq in Hrot.
  rewrite (inv_version _ _ Hinv) in Hrot.
  replace (Z.of_nat n + 1 + 1) with (Z.of_nat n + 2) in Hrot by lia.
  destruct (hkdfSync P _ _ _ _ _) as [derived|] eqn:Hkdf; [|discriminate].
  injection Hrot as <-. cbn [fst snd].
  exists (length (heap w)), derived. repeat split; try reflexivity.
  - apply lookup_ge_None_2. lia.
  - cbn. apply lookup_snoc.
  - cbn. destruct (inv_current _ _ Hinv) as [r Hr]. rewrite Hr.
    destruct (hi_current _ _ Hheap r Hr) as (d & _ & _ & _ & Hd & _).
    cbn in Hd. apply lookup_lt_Some in Hd. intros [= ->]. lia.
  - intros r o Hr. cbn. by apply lookup_app_l_Some.
Qed.

Lemma rotation_installs_fresh_key_witness :
  exists key derived,
    currentKey (fst Demo.rotated_once) = Some key /\
    heap (snd Demo.created) !! key = None /\
    heap (snd Demo.rotated_once) !! key = Some (ArrayBuffer derived) /\
    hkdfSync Demo.platform "sha256"
      (deref (snd Demo.created) (masterKeyBuffer (fst Demo.created)))
      (fresh_bytes 32 (snd Demo.created))
      (key_info Demo.platform (Z.of_nat 0 + 2)) 32
      = Return derived /\
    drawn (snd Demo.rotated_once) = (drawn (snd Demo.created) + 32)%nat /\
    previousKey (fst Demo.rotated_once) = currentKey (fst Demo.created) /\
    previousKey (fst Demo.rotated_once) <> Some key /\
    (forall r o, heap (snd Demo.created) !! r = Some o ->
       heap (snd Demo.rotated_once) !! r = Some o) /\
    lastRotationTime (fst Demo.rotated_once)
      = Some (clock (snd Demo.created)) /\
    masterKeyBuffer (fst Demo.rotated_once)
      = masterKeyBuffer (fst Demo.created) /\
    rotationIntervalMs (fst Demo.rotated_once)
      = rotationIntervalMs (fst Demo.created) /\
    rotationTimer (fst Demo.rotated_once)
      = rotationTimer (fst Demo.created) /\
    timers (snd Demo.rotated_once) = timers (snd Demo.created).
Proof.
  apply (rotation_installs_fresh_key Demo.platform 0 Demo.created
           Demo.rotated_once demo_created_reachable).
  vm_compute. reflexivity.
Defined.

Lemma destroy_fields s :
  fst (destroy s) = Return tt /\
  masterKeyBuffer (fst (snd (destroy s))) = masterKeyBuffer (fst s) /\
  currentVersion (fst (snd (destroy s))) = currentVersion (fst s) /\
  previousVersion (fst (snd (destroy s))) = previousVersion (fst s) /\
  currentKey (fst (snd (destroy s))) = currentKey (fst s) /\
  previousKey (fst (snd (destroy s))) = previousKey (fst s).
Proof.
  rewrite destroy_eq. cbn zeta.
  rewrite fill_if_buffer_returns, !fill_if_buffer_this.
  unfold timer_cleared. by destruct (rotationTimer (fst s)).
Qed.

Lemma Vault_destroy_eq v w :
  Vault_destroy (v, w) =
  (Return tt,
   (mkVaultService (fst (snd (destroy (keyManager v, w))))
      (encryptionService v) (mkDataStore ∅),
    snd (snd (destroy (keyManager v, w))))).
Proof.
  destruct (destroy_fields (keyManager v, w)) as [Hret _].
  unfold Vault_destroy, bind, zoom, DataStore_clear, update. cbn [fst snd].
  destruct (destroy (keyManager v, w)) as [c [k w']]. cbn in Hret.
  subst c. reflexivity.
Qed.

Lemma all_zero_zero_fill (d : bytes) : all_zero (zero_fill d) = true.
Proof. induction d as [|b d IH]; [reflexivity|exact IH]. Qed.

(** X24.  [destroy] of a reachable vault completes and leaves a vault
    with no record, in which [retrieve] of any id throws "Record not
    found"; the rotation timer is cancelled and no longer scheduled, and
    the master key has as many octets as before, all zero. *)
Theorem vault_destroy_effect P s :
  vault_reachable P s ->
  fst (Vault_destroy s) = Return tt /\
  getAllIds (dataStore (fst (snd (Vault_destroy s)))) = ∅ /\
  (forall id,
     retrieve P id (snd (Vault_destroy s))
     = (Throw (Error "Record not found"), snd (Vault_destroy s))) /\
  rotationTimer (keyManager (fst (snd (Vault_destroy s)))) = None /\
  (forall t, rotationTimer (keyManager (fst s)) = Some t ->
     t ∉ timers (snd (snd (Vault_destroy s)))) /\
  all_zero (deref (snd (snd (Vault_destroy s)))
              (masterKeyBuffer (keyManager (fst s)))) = true /\
  length (deref (snd (snd (Vault_destroy s)))
            (masterKeyBuffer (keyManager (fst s))))
  = length (deref (snd s) (masterKeyBuffer (keyManager (fst s)))).
Proof.
  intros Hreach.
  destruct (vault_reachable_km P s Hreach) as [n Hkm].
  destruct (hi_master _ _ (km_reachable_heap P n _ Hkm)) as [secret Hm].
  destruct s as [v w]. cbn [fst snd] in *.
  rewrite Vault_destroy_eq. cbn [fst snd keyManager dataStore].
  destruct (destroy_cancels_timer (keyManager v, w)) as [Hnone Hgone].
  destruct (destroy_fields (keyManager v, w)) as (_ & Hmk & _).
  pose proof (destroy_zeroes_master (keyManager v, w) secret Hm) as Hzero.
  rewrite Hmk in Hzero. cbn [fst snd] in Hzero.
  split; [reflexivity|]. split; [|split; [|split; [|split; [|split]]]].
  - unfold getAllIds. cbn [storage]. apply dom_empty_L.
  - intros id. apply retrieve_missing. cbn. apply lookup_empty.
  - exact Hnone.
  - exact Hgone.
  - unfold deref. rewrite Hzero. cbn [contents]. apply all_zero_zero_fill.
  - unfold deref. rewrite Hzero, Hm. cbn [contents]. unfold zero_fill.
    apply length_map.
Qed.

Lemma vault_destroy_effect_witness :
  fst (Vault_destroy (snd Demo.stored)) = Return tt /\
  getAllIds (dataStore (fst (snd (Vault_destroy (snd Demo.stored))))) = ∅ /\
  (forall id,
     retrieve Demo.platform id (snd (Vault_destroy (snd Demo.stored)))
     = (Throw (Error "Record not found"),
        snd (Vault_destroy (snd Demo.stored)))) /\
  rotationTimer (keyManager (fst (snd (Vault_destroy (snd Demo.stored)))))
    = None /\
  (forall t, rotationTimer (keyManager (fst (snd Demo.stored))) = Some t ->
     t ∉ timers (snd (snd (Vault_destroy (snd Demo.stored))))) /\
  all_zero (deref (snd (snd (Vault_destroy (snd Demo.stored))))
              (masterKeyBuffer (keyManager (fst (snd Demo.stored))))) = true /\
  length (deref (snd (snd (Vault_destroy (snd Demo.stored))))
            (masterKeyBuffer (keyManager (fst (snd Demo.stored)))))
  = length (deref (snd (snd Demo.stored))
              (masterKeyBuffer (keyManager (fst (snd Demo.stored))))).
Proof.
  apply (vault_destroy_effect Demo.platform (snd Demo.stored)).
  apply store_reachable. exact demo_vault_reachable.
Defined.

(** What the round trip needs of a vault: the service as constructed and
    a current key of 32 octets. *)
Lemma roundtrip_with_key P (HP : PlatformSpec P) v w key (value : JSValue P) :
  encryptionService v = EncryptionService_new ->
  currentKey (keyManager v) = Some key ->
  length (deref w key) = 32%nat ->
  JSON_serializable P value ->
  exists r s1,
    store P value (v, w) = (Return r, s1) /\
    res_keyVersion r = currentVersion (keyManager v) /\
    exists out,
      retrieve P (res_id r) s1 = (Return out, s1) /\
      data out = value /\
      meta_keyVersion out = res_keyVersion r.
Proof.
  intros Hsvc Hkey Hlen (text & Htext & Hparse).
  rewrite store_eq. cbn zeta. rewrite Htext, Hkey, Hsvc.
  change (ivLength EncryptionService_new) with 12%nat.
  change (algorithm EncryptionService_new) with "aes-256-gcm".
  destruct (gcm_accepts (deref w key) (fresh_bytes 12 w)
              (utf8_encode P text) Hlen (fresh_bytes_length _ _))
    as (ct & tag & Hseal).
  rewrite Hseal. cbn [fst snd].
  do 2 eexists. split; [reflexivity|]. cbn [res_id res_keyVersion].
  split; [reflexivity|].
  set (id := uuid_of_bytes (fresh_bytes 16 (drew 12 w))).
  set (record := filed (currentVersion (keyManager v))
                   (mkEncryptedData ct (fresh_bytes 12 w) tag) id (clock w)).
  erewrite (retrieve_supported P _ _ id record key).
  - cbn [encryptionService set_dataStore]. rewrite Hsvc.
    change (algorithm EncryptionService_new) with "aes-256-gcm".
    unfold record, filed; cbn [rec_iv rec_tag rec_ciphertext enc_iv enc_tag
                                 enc_ciphertext rec_keyVersion rec_timestamp].
    rewrite !base64_inverse.
    replace (deref (drew 16 (drew 12 w)) key) with (deref w key)
      by reflexivity.
    rewrite (gcm_inverse _ _ _ _ _ Hseal), utf8_inverse, Hparse.
    eexists. split; [reflexivity|]. split; reflexivity.
  - unfold DataStore_retrieve; cbn. apply lookup_insert_eq.
  - cbn. unfold isVersionSupported. by rewrite Z.eqb_refl.
  - cbn. unfold getKeyByVersion. by rewrite Z.eqb_refl.
Qed.

(** X25.  [destroy] does not put a vault out of service.  It leaves the
    current key in place with its octets, so a later [store] of a value
    that survives JSON still completes, under the version that was
    current before the [destroy], and [retrieve] of the id it returned
    gives the value back. *)
Theorem destroyed_vault_still_serves P (HP : PlatformSpec P) s
    (value : JSValue P) :
  vault_reachable P s ->
  JSON_serializable P value ->
  exists r s1,
    store P value (snd (Vault_destroy s)) = (Return r, s1) /\
    res_keyVersion r = currentVersion (keyManager (fst s)) /\
    exists out,
      retrieve P (res_id r) s1 = (Return out, s1) /\
      data out = value /\
      meta_keyVersion out = res_keyVersion r.
Proof.
  intros Hreach Hser.
  destruct (vault_reachable_current_key P HP s Hreach)
    as (Hsvc & key & Hkey & Hlen).
  destruct (vault_reachable_km P s Hreach) as [n Hkm].
  destruct (hi_current _ _ (km_reachable_heap P n _ Hkm) key Hkey)
    as (d & _ & _ & _ & Hd & _).
  destruct s as [v w]. cbn [fst snd] in *.
  rewrite Vault_destroy_eq. cbn [snd].
  destruct (destroy_fields (keyManager v, w)) as (_ & _ & Hver & _ & Hcur & _).
  cbn [fst] in Hver, Hcur.
  pose proof (destroy_skips_array_buffers (keyManager v, w) key d Hd) as Hd'.
  destruct (roundtrip_with_key P HP
              (mkVaultService (fst (snd (destroy (keyManager v, w))))
                 (encryptionService v) (mkDataStore ∅))
              (snd (snd (destroy (keyManager v, w)))) key value)
    as (r & s1 & Hstore & Hv & Hout).
  - exact Hsvc.
  - cbn [keyManager]. by rewrite Hcur.
  - unfold deref in *. rewrite Hd'. cbn [fst snd] in Hd.
    by rewrite Hd in Hlen.
  - exact Hser.
  - exists r, s1. split; [exact Hstore|]. split; [|exact Hout].
    rewrite Hv. cbn [keyManager]. exact Hver.
Qed.

Lemma destroyed_vault_still_serves_witness :
  exists r s1,
    store Demo.platform Demo.payload (snd (Vault_destroy (snd Demo.stored)))
      = (Return r, s1) /\
    res_keyVersion r = currentVersion (keyManager (fst (snd Demo.stored))) /\
    exists out,
      retrieve Demo.platform (res_id r) s1 = (Return out, s1) /\
      data out = Demo.payload /\
      meta_keyVersion out = res_keyVersion r.
Proof.
  apply (destroyed_vault_still_serves Demo.platform demo_platform_spec
           (snd Demo.stored) Demo.payload).
  - apply store_reachable. exact demo_vault_reachable.
  - exact demo_payload_serializable.
Defined.

(** Whatever [Buffer] a reference leads to in heap [h] is all zero. *)
Lemma fill_if_buffer_zeroes x s r :
  (x = Some r \/
   forall d, heap (snd s) !! r = Some (Buffer d) -> zero_fill d = d) ->
  forall d, heap (snd (snd (fill_if_buffer x s))) !! r = Some (Buffer d) ->
            zero_fill d = d.
Proof.
  destruct s as [this w]. cbn [fst snd].
  assert (forall d, zero_fill (zero_fill d) = zero_fill d) as Hidem
    by (intros d; unfold zero_fill; by rewrite map_map).
  intros Hx d. destruct x as [r'|]; cbn.
  - unfold bind, in_world, isBuffer, fill0; cbn.
    destruct (heap w !! r') as [o|] eqn:Ho; cbn.
    + destruct o as [d'|d']; cbn.
      * destruct Hx as [[= ->]|Hx]; [congruence|apply Hx].
      * destruct (decide (r' = r)) as [->|Hne].
        -- rewrite list_lookup_alter_eq, Ho. cbn. intros [= <-]. apply Hidem.
        -- rewrite list_lookup_alter_ne by done.
           destruct Hx as [[= ->]|Hx]; [done|apply Hx].
    + destruct Hx as [[= ->]|Hx]; [congruence|apply Hx].
  - destruct Hx as [Hx|Hx]; [discriminate|apply Hx].
Qed.

Lemma fill_if_buffer_noop x s :
  (forall r d, x = Some r -> heap (snd s) !! r = Some (Buffer d) ->
     zero_fill d = d) ->
  fill_if_buffer x s = (Return tt, s).
Proof.
  destruct s as [this w]. cbn [fst snd]. intros Hz.
  destruct x as [r|]; [|reflexivity]. cbn.
  unfold bind, in_world, isBuffer, fill0; cbn.
  destruct (heap w !! r) as [o|] eqn:Ho; cbn; [|reflexivity].
  destruct o as [d|d]; cbn; [reflexivity|].
  replace (alter fill_zero r (heap w)) with (heap w); [by destruct w|].
  apply list_eq. intros i. destruct (decide (r = i)) as [->|Hne].
  - rewrite list_lookup_alter_eq, Ho. cbn. by rewrite (Hz i d eq_refl Ho).
  - by rewrite list_lookup_alter_ne.
Qed.

(** X26.  [destroy] may be called again: a second [destroy] completes and
    changes nothing, in the key manager or in the world. *)
Theorem destroy_twice s :
  destroy (snd (destroy s)) = (Return tt, snd (destroy s)).
Proof.
  destruct (destroy_cancels_timer s) as [Hnone _].
  destruct (destroy_fields s) as (_ & Hm & _ & _ & Hc & Hp).
  assert (forall r, Some r = currentKey (fst s) \/ Some r = previousKey (fst s)
                    \/ r = masterKeyBuffer (fst s) ->
          forall d, heap (snd (snd (destroy s))) !! r = Some (Buffer d) ->
                    zero_fill d = d) as Hzero.
  { rewrite destroy_eq. cbn zeta.
    set (s1 := timer_cleared s).
    set (s2 := snd (fill_if_buffer (currentKey (fst s1)) s1)).
    set (s3 := snd (fill_if_buffer (previousKey (fst s2)) s2)).
    assert (fst s1 = fst s \/ fst s1 = set_rotationTimer None (fst s)) as H1.
    { unfold s1, timer_cleared. destruct (rotationTimer (fst s)); by auto. }
    assert (fst s2 = fst s1) as H2 by apply fill_if_buffer_this.
    assert (fst s3 = fst s2) as H3 by apply fill_if_buffer_this.
    assert (currentKey (fst s1) = currentKey (fst s) /\
            previousKey (fst s1) = previousKey (fst s) /\
            masterKeyBuffer (fst s1) = masterKeyBuffer (fst s))
      as (Hc1 & Hp1 & Hm1) by (destruct H1 as [-> | ->]; done).
    intros r Hr.
    apply fill_if_buffer_zeroes.
    destruct Hr as [Hr|[Hr|Hr]].
    - right. apply fill_if_buffer_zeroes. right.
      apply fill_if_buffer_zeroes. left. by rewrite Hc1.
    - right. apply fill_if_buffer_zeroes. left. by rewrite H2, Hp1.
    - left. by rewrite H3, H2, Hm1, Hr. }
  set (s' := snd (destroy s)) in *.
  rewrite destroy_eq. cbn zeta.
  assert (timer_cleared s' = s') as ->
    by (unfold timer_cleared; by rewrite Hnone).
  rewrite (fill_if_buffer_noop (currentKey (fst s')) s'); cbn [snd].
  2:{ intros r d Hr. apply Hzero. left. by rewrite <- Hc, Hr. }
  rewrite (fill_if_buffer_noop (previousKey (fst s')) s'); cbn [snd].
  2:{ intros r d Hr. apply Hzero. right; left. by rewrite <- Hp, Hr. }
  apply fill_if_buffer_noop.
  intros r d [= <-]. apply Hzero. right; right. exact Hm.
Qed.
